(** * Acid House Machine: the audio engine of [src/app/page.tsx]

    A shallow embedding of the synthesizer's audio-generation, routing and
    scheduling code.  The component drives the browser's Web Audio API; the
    effect of a function is the sequence of API calls it makes.  The engine
    state below keeps what those calls change: the connection graph
    ([connect] / [disconnect]) and, in call order, every node creation,
    property assignment and automation event.

    JavaScript numbers are idealised as rationals ([Q]); equalities between
    computed times and levels are therefore stated with [==]. *)

From Stdlib Require Import QArith Lqa.
From stdpp Require Import base option list strings gmap fin_sets.

Open Scope Q_scope.
Set Warnings "-clear-no-such-hyp".

(** ** Parameter snapshots (the two [interface] declarations) *)

(** [SynthParams.oscillatorType] is one of three literals; drum voices also
    use the Web Audio waveform ['sine']. *)
Inductive SynthWaveform := sawtooth | square | triangle.

Inductive OscillatorType := sine | wave (w : SynthWaveform).

Record SynthParams := {
  oscillatorType : SynthWaveform;
  cutoff : Q;
  resonance : Q;
  attack : Q;
  decay : Q;
  sustain : Q;
  release : Q;
  delayTime : Q;
  delayFeedback : Q;
}.

Record DrumParams := {
  kickTone : Q;
  kickDecay : Q;
  snareNoise : Q;
  snareTone : Q;
  snareDecay : Q;
  hiHatOpen : Q;
  hiHatDecay : Q;
  tomTone : Q;
  tomDecay : Q;
  clapDecay : Q;
  percTone : Q;
  percDecay : Q;
  tempo : Q;
}.

Definition defaultSynthParams : SynthParams := {|
  oscillatorType := sawtooth;
  cutoff := 50;
  resonance := 20;
  attack := 20;
  decay := 40;
  sustain := 70;
  release := 30;
  delayTime := 30;
  delayFeedback := 40;
|}.

Definition defaultDrumParams : DrumParams := {|
  kickTone := 50;
  kickDecay := 200;
  snareNoise := 50;
  snareTone := 50;
  snareDecay := 150;
  hiHatOpen := 50;
  hiHatDecay := 80;
  tomTone := 100;
  tomDecay := 300;
  clapDecay := 150;
  percTone := 800;
  percDecay := 100;
  tempo := 120;
|}.

(** The master FX state: four [useState] booleans. *)
Record EffectsGraphState := {
  delayEnabled : bool;
  reverbEnabled : bool;
  compressionEnabled : bool;
  duckKick : bool;
}.

(** ** Audio nodes

    The long-lived nodes are the ones held in the component's refs plus
    [ctx.destination]; every trigger allocates fresh voice nodes. *)

Inductive NodeKind := Oscillator | Gain | BiquadFilter | BufferSource.

Inductive AudioNode :=
  | MasterGain          (* masterGainRef *)
  | DelayNode           (* delayNodeRef *)
  | DelayFeedbackGain   (* delayFeedbackGainRef *)
  | ReverbConvolver     (* reverbConvolverRef *)
  | CompressionNode     (* compressionNodeRef *)
  | DuckGain            (* duckGainRef *)
  | KickGain            (* kickGainRef *)
  | Destination         (* ctx.destination *)
  | Voice (k : NodeKind) (id : nat).

Global Instance NodeKind_eq_dec : EqDecision NodeKind.
Proof. solve_decision. Defined.

Global Instance AudioNode_eq_dec : EqDecision AudioNode.
Proof. solve_decision. Defined.

Definition NodeKind_code (k : NodeKind) : nat :=
  match k with Oscillator => 0 | Gain => 1 | BiquadFilter => 2 | BufferSource => 3 end.

Definition NodeKind_decode (c : nat) : NodeKind :=
  match c with 0 => Oscillator | 1 => Gain | 2 => BiquadFilter | _ => BufferSource end%nat.

Definition AudioNode_code (n : AudioNode) : nat + nat * nat :=
  match n with
  | MasterGain => inl 0 | DelayNode => inl 1 | DelayFeedbackGain => inl 2
  | ReverbConvolver => inl 3 | CompressionNode => inl 4 | DuckGain => inl 5
  | KickGain => inl 6 | Destination => inl 7
  | Voice k id => inr (NodeKind_code k, id)
  end%nat.

Definition AudioNode_decode (c : nat + nat * nat) : AudioNode :=
  match c with
  | inl 0 => MasterGain | inl 1 => DelayNode | inl 2 => DelayFeedbackGain
  | inl 3 => ReverbConvolver | inl 4 => CompressionNode | inl 5 => DuckGain
  | inl 6 => KickGain | inl _ => Destination
  | inr (k, id) => Voice (NodeKind_decode k) id
  end%nat.

Global Instance AudioNode_countable : Countable AudioNode.
Proof.
  apply (inj_countable' AudioNode_code AudioNode_decode).
  intros [| | | | | | | | [] id]; reflexivity.
Defined.

(** A connection is an edge; the Web Audio graph holds at most one
    connection between a given pair of nodes, so the graph is a set. *)
Abbreviation Edge := (AudioNode * AudioNode)%type.
Abbreviation Graph := (gset (AudioNode * AudioNode)).

(** ** Parameters and automation events *)

Inductive ParamName :=
  | P_gain | P_frequency | P_Q | P_delayTime
  | P_threshold | P_knee | P_ratio | P_attack | P_release.

Inductive FilterType := lowpass | highpass.

(** The four scheduling methods of an [AudioParam] the code uses. *)
Inductive AutomationEvent :=
  | setValueAtTime (value time : Q)
  | linearRampToValueAtTime (value endTime : Q)
  | exponentialRampToValueAtTime (value endTime : Q)
  | setTargetAtTime (target startTime timeConstant : Q).

Inductive ApiCall :=
  | Create (n : AudioNode)                           (* ctx.createX() *)
  | CreateNoiseBuffer (id : nat) (seconds : Q)       (* ctx.createBuffer + fill *)
  | SetBuffer (n : AudioNode) (buffer : nat)         (* noise.buffer = b *)
  | SetOscType (n : AudioNode) (w : OscillatorType)  (* osc.type = w *)
  | SetFilterType (n : AudioNode) (f : FilterType)   (* filter.type = f *)
  | SetValue (n : AudioNode) (p : ParamName) (v : Q) (* n.p.value = v *)
  | Automate (n : AudioNode) (p : ParamName) (ev : AutomationEvent)
  | Start (n : AudioNode) (when : option Q)          (* n.start() / n.start(when) *)
  | Stop (n : AudioNode) (when : Q).                 (* n.stop(when) *)

(** ** Engine state *)

Record Engine := {
  ready : bool;            (* the refs are non-null: the mount effect ran *)
  currentTime : Q;         (* ctx.currentTime *)
  nextId : nat;            (* allocation counter for fresh objects *)
  edges : Graph;           (* the connections *)
  calls : list ApiCall;    (* every other API call, oldest first *)
}.

Definition Audio (A : Type) : Type := Engine → A * Engine.

Global Instance Audio_ret : MRet Audio := λ A x e, (x, e).
Global Instance Audio_bind : MBind Audio := λ A B f m e, let '(x, e') := m e in f x e'.

Definition exec {A} (m : Audio A) (e : Engine) : Engine := (m e).2.

Definition skip : Audio unit := mret tt.

(** Reading [ctx.currentTime]. *)
Definition ctxCurrentTime : Audio Q := λ e, (currentTime e, e).

Definition record (c : ApiCall) : Audio unit := λ e,
  (tt, {| ready := ready e; currentTime := currentTime e; nextId := nextId e;
          edges := edges e; calls := calls e ++ [c] |}).

Definition rewire (f : Graph → Graph) : Audio unit := λ e,
  (tt, {| ready := ready e; currentTime := currentTime e; nextId := nextId e;
          edges := f (edges e); calls := calls e |}).

Definition fresh : Audio nat := λ e,
  (nextId e, {| ready := ready e; currentTime := currentTime e; nextId := S (nextId e);
                edges := edges e; calls := calls e |}).

(** [a.connect(b)]: adds the connection; connecting a pair twice is ignored. *)
Definition connect (a b : AudioNode) : Audio unit := rewire (λ g, {[ (a, b) ]} ∪ g).

(** [a.disconnect()]: drops every outgoing connection of [a]. *)
Definition disconnect (a : AudioNode) : Audio unit := rewire (filter (λ c, c.1 ≠ a)).

Definition create (k : NodeKind) : Audio AudioNode :=
  id ← fresh; record (Create (Voice k id));; mret (Voice k id).

(** Guard of the form [if (!ref.current) return;]. *)
Definition whenReady (m : Audio unit) : Audio unit := λ e,
  if ready e then m e else (tt, e).

(** ** The mount effect ([useEffect(..., [])]): creates the long-lived nodes
    and the static wiring.  The asynchronous impulse-response load only
    fills the convolver's buffer and is left out. *)
Definition mountEffect : Audio unit := λ e0,
  let e := {| ready := true; currentTime := currentTime e0; nextId := nextId e0;
              edges := edges e0; calls := calls e0 |} in
  ( record (Create MasterGain);;
    record (SetValue MasterGain P_gain 0.7);;
    (* Delay setup *)
    record (Create DelayNode);;
    record (SetValue DelayNode P_delayTime 0.3);;
    record (Create DelayFeedbackGain);;
    record (SetValue DelayFeedbackGain P_gain 0.4);;
    connect DelayNode DelayFeedbackGain;;
    connect DelayFeedbackGain DelayNode;;
    (* Reverb setup *)
    record (Create ReverbConvolver);;
    (* Compression setup *)
    record (Create CompressionNode);;
    t ← ctxCurrentTime;
    record (Automate CompressionNode P_threshold (setValueAtTime (-24) t));;
    record (Automate CompressionNode P_knee (setValueAtTime 30 t));;
    record (Automate CompressionNode P_ratio (setValueAtTime 12 t));;
    record (Automate CompressionNode P_attack (setValueAtTime 0.003 t));;
    record (Automate CompressionNode P_release (setValueAtTime 0.25 t));;
    (* Ducking gain for kick *)
    record (Create DuckGain);;
    record (SetValue DuckGain P_gain 1);;
    (* Kick gain for ducking *)
    record (Create KickGain);;
    (* Connect nodes *)
    connect DelayNode DelayFeedbackGain;;
    connect DelayNode ReverbConvolver;;
    connect ReverbConvolver CompressionNode;;
    connect CompressionNode Destination;;
    connect MasterGain CompressionNode ) e.

(** The second effect: update delay parameters. *)
Definition updateDelayParams (synthParams : SynthParams) : Audio unit :=
  whenReady
    ( record (SetValue DelayNode P_delayTime (delayTime synthParams / 100 * 1.0));;
      record (SetValue DelayFeedbackGain P_gain (delayFeedback synthParams / 100)) ).

(** ** [connectToEffectsChain]

    The local variable [destination] of the source is assigned in several
    branches and never read; it has no counterpart here. *)
Definition connectToEffectsChain (fx : EffectsGraphState) (node : AudioNode) : Audio unit :=
  whenReady
    ( (* Disconnect node from any previous connections *)
      disconnect node;;
      let inputNode := node in
      (if delayEnabled fx
       then connect inputNode DelayNode
       else connect inputNode MasterGain);;
      (if reverbEnabled fx
       then
         if delayEnabled fx
         then disconnect DelayNode;; connect DelayNode ReverbConvolver
         else disconnect inputNode;; connect inputNode ReverbConvolver
       else
         if delayEnabled fx
         then disconnect DelayNode;; connect DelayNode MasterGain
         else skip);;
      (if compressionEnabled fx
       then
         (if reverbEnabled fx
          then disconnect ReverbConvolver;; connect ReverbConvolver CompressionNode
          else if delayEnabled fx
          then disconnect DelayNode;; connect DelayNode CompressionNode
          else disconnect inputNode;; connect inputNode CompressionNode);;
         connect CompressionNode Destination
       else
         if reverbEnabled fx
         then disconnect ReverbConvolver;; connect ReverbConvolver Destination
         else if delayEnabled fx
         then disconnect DelayNode;; connect DelayNode Destination
         else disconnect inputNode;; connect inputNode Destination) ).

(** ** [playSynthNote] *)
Definition playSynthNote (synthParams : SynthParams) (fx : EffectsGraphState)
    (frequency : Q) : Audio unit :=
  whenReady
    ( osc ← create Oscillator;
      record (SetOscType osc (wave (oscillatorType synthParams)));;
      record (SetValue osc P_frequency frequency);;
      gainNode ← create Gain;
      record (SetValue gainNode P_gain 0);;
      filter ← create BiquadFilter;
      record (SetFilterType filter lowpass);;
      record (SetValue filter P_frequency 20000);;
      record (SetValue filter P_Q (resonance synthParams / 10));;
      connect osc gainNode;;
      connect gainNode filter;;
      (* Connect filter to masterGain or effects chain *)
      connectToEffectsChain fx filter;;
      now ← ctxCurrentTime;
      let attackTime := attack synthParams / 100 in
      let decayTime := decay synthParams / 100 in
      let sustainLevel := sustain synthParams / 100 in
      let releaseTime := release synthParams / 100 in
      record (Automate gainNode P_gain (setValueAtTime 0 now));;
      record (Automate gainNode P_gain (linearRampToValueAtTime 1 (now + attackTime)));;
      record (Automate gainNode P_gain
                (linearRampToValueAtTime sustainLevel (now + attackTime + decayTime)));;
      record (Automate filter P_frequency (setValueAtTime 20000 now));;
      record (Automate filter P_frequency
                (linearRampToValueAtTime (cutoff synthParams * 200) (now + 0.1)));;
      record (Start osc (Some now));;
      record (Automate gainNode P_gain
                (setTargetAtTime 0 (now + attackTime + decayTime) (releaseTime / 10)));;
      record (Stop osc (now + attackTime + decayTime + releaseTime + 0.1)) ).

(** ** [playDrumSound] *)

Inductive DrumType := kick | snare | hihat | tom | clap | perc.

(** A call whose time argument is written [ctx.currentTime + ...]: the
    clock is read where the call is made. *)
Definition atNow (f : Q → ApiCall) : Audio unit :=
  t ← ctxCurrentTime; record (f t).

(** [createNoiseBuffer]: a fresh buffer of [sampleRate * 0.2] random
    samples, that is 0.2 seconds; the sample values are not modelled. *)
Definition createNoiseBuffer : Audio nat :=
  id ← fresh; record (CreateNoiseBuffer id 0.2);; mret id.

Definition playDrumSound (drumParams : DrumParams) (type : DrumType) : Audio unit :=
  whenReady
    match type with
    | kick =>
        osc ← create Oscillator;
        gainNode ← create Gain;
        atNow (λ t, Automate osc P_frequency (setValueAtTime (150 + kickTone drumParams * 5) t));;
        atNow (λ t, Automate gainNode P_gain (setValueAtTime 1 t));;
        record (SetOscType osc sine);;
        connect osc gainNode;;
        connect gainNode KickGain;;
        connect KickGain MasterGain;;
        record (Start osc None);;
        atNow (λ t, Automate osc P_frequency
                      (exponentialRampToValueAtTime 20 (t + kickDecay drumParams / 1000)));;
        atNow (λ t, Automate gainNode P_gain
                      (exponentialRampToValueAtTime 0.001 (t + kickDecay drumParams / 1000)));;
        atNow (λ t, Stop osc (t + kickDecay drumParams / 1000 + 0.05))
    | snare =>
        noiseBuffer ← createNoiseBuffer;
        noise ← create BufferSource;
        record (SetBuffer noise noiseBuffer);;
        noiseGain ← create Gain;
        atNow (λ t, Automate noiseGain P_gain (setValueAtTime 0.5 t));;
        osc ← create Oscillator;
        oscGain ← create Gain;
        record (SetOscType osc (wave triangle));;
        atNow (λ t, Automate osc P_frequency (setValueAtTime (100 + snareTone drumParams * 2) t));;
        atNow (λ t, Automate oscGain P_gain (setValueAtTime 0.3 t));;
        connect noise noiseGain;;
        connect noiseGain MasterGain;;
        connect osc oscGain;;
        connect oscGain MasterGain;;
        record (Start noise None);;
        record (Start osc None);;
        atNow (λ t, Automate noiseGain P_gain
                      (exponentialRampToValueAtTime 0.01 (t + snareDecay drumParams / 1000)));;
        atNow (λ t, Automate oscGain P_gain
                      (exponentialRampToValueAtTime 0.01 (t + snareDecay drumParams / 1000)));;
        atNow (λ t, Stop noise (t + snareDecay drumParams / 1000));;
        atNow (λ t, Stop osc (t + snareDecay drumParams / 1000))
    | hihat =>
        noiseBuffer ← createNoiseBuffer;
        noise ← create BufferSource;
        record (SetBuffer noise noiseBuffer);;
        noiseGain ← create Gain;
        atNow (λ t, Automate noiseGain P_gain (setValueAtTime 0.3 t));;
        filter ← create BiquadFilter;
        record (SetFilterType filter highpass);;
        atNow (λ t, Automate filter P_frequency
                      (setValueAtTime (7000 - hiHatOpen drumParams * 50) t));;
        connect noise filter;;
        connect filter noiseGain;;
        connect noiseGain MasterGain;;
        record (Start noise None);;
        atNow (λ t, Automate noiseGain P_gain
                      (exponentialRampToValueAtTime 0.01 (t + hiHatDecay drumParams / 1000)));;
        atNow (λ t, Stop noise (t + hiHatDecay drumParams / 1000))
    | tom =>
        osc ← create Oscillator;
        gainNode ← create Gain;
        record (SetOscType osc sine);;
        atNow (λ t, Automate osc P_frequency (setValueAtTime (tomTone drumParams) t));;
        atNow (λ t, Automate gainNode P_gain (setValueAtTime 0.7 t));;
        connect osc gainNode;;
        connect gainNode MasterGain;;
        record (Start osc None);;
        atNow (λ t, Automate gainNode P_gain
                      (exponentialRampToValueAtTime 0.01 (t + tomDecay drumParams / 1000)));;
        atNow (λ t, Stop osc (t + tomDecay drumParams / 1000 + 0.05))
    | clap =>
        noiseBuffer ← createNoiseBuffer;
        noise ← create BufferSource;
        record (SetBuffer noise noiseBuffer);;
        noiseGain ← create Gain;
        atNow (λ t, Automate noiseGain P_gain (setValueAtTime 0.5 t));;
        connect noise noiseGain;;
        connect noiseGain MasterGain;;
        record (Start noise None);;
        atNow (λ t, Automate noiseGain P_gain
                      (exponentialRampToValueAtTime 0.01 (t + clapDecay drumParams / 1000)));;
        atNow (λ t, Stop noise (t + clapDecay drumParams / 1000))
    | perc =>
        osc ← create Oscillator;
        gainNode ← create Gain;
        record (SetOscType osc (wave sawtooth));;
        atNow (λ t, Automate osc P_frequency (setValueAtTime (percTone drumParams) t));;
        atNow (λ t, Automate gainNode P_gain (setValueAtTime 0.5 t));;
        connect osc gainNode;;
        connect gainNode MasterGain;;
        record (Start osc None);;
        atNow (λ t, Automate gainNode P_gain
                      (exponentialRampToValueAtTime 0.01 (t + percDecay drumParams / 1000)));;
        atNow (λ t, Stop osc (t + percDecay drumParams / 1000 + 0.05))
    end.

(** The sequencer passes the lane's key, a string, with [as any]; a key
    that is none of the six literals matches no [case]. *)
Definition drumOfString (s : string) : option DrumType :=
  if decide (s = "kick") then Some kick
  else if decide (s = "snare") then Some snare
  else if decide (s = "hihat") then Some hihat
  else if decide (s = "tom") then Some tom
  else if decide (s = "clap") then Some clap
  else if decide (s = "perc") then Some perc
  else None.

Definition playDrumSoundAny (drumParams : DrumParams) (instrument : string) : Audio unit :=
  match drumOfString instrument with
  | Some type => playDrumSound drumParams type
  | None => skip
  end.

(** ** Component state and the sequencer *)

(** A JavaScript object with string keys, in insertion order. *)
Abbreviation DrumSequencer := (list (string * list bool)).

Record App := {
  synthParams : SynthParams;
  drumParams : DrumParams;
  currentStep : nat;
  isPlaying : bool;
  effects : EffectsGraphState;   (* delayEnabled, reverbEnabled, compressionEnabled, duckKick *)
  synthSequencer : list bool;
  drumSequencer : DrumSequencer;
  timeouts : list Q;             (* delays (ms) of the pending [setTimeout] callbacks *)
  engine : Engine;
}.

Definition initialEngine : Engine :=
  {| ready := false; currentTime := 0; nextId := 0; edges := ∅; calls := [] |}.

Definition initialApp : App := {|
  synthParams := defaultSynthParams;
  drumParams := defaultDrumParams;
  currentStep := 0;
  isPlaying := false;
  effects := {| delayEnabled := false; reverbEnabled := false;
                compressionEnabled := false; duckKick := false |};
  synthSequencer := replicate 16 false;
  drumSequencer := [("kick", replicate 16 false); ("snare", replicate 16 false);
                    ("hihat", replicate 16 false); ("tom", replicate 16 false);
                    ("clap", replicate 16 false); ("perc", replicate 16 false)];
  timeouts := [];
  engine := initialEngine;
|}.

Definition Qnat (n : nat) : Q := inject_Z (Z.of_nat n).

(** [steps[i]] used as a condition: an index past the end reads
    [undefined], which is falsy. *)
Definition stepActive (steps : list bool) (i : nat) : bool := default false (steps !! i).

(** [arr[i] = v] on a copy: in range it replaces the element, past the end
    JavaScript grows the array.  The holes left in between read as
    [undefined]; the program only ever tests elements for truthiness, so
    they are written [false]. *)
Definition arrayAssign (arr : list bool) (i : nat) (v : bool) : list bool :=
  if decide (i < length arr)%nat then <[i := v]> arr
  else arr ++ replicate (i - length arr) false ++ [v].

(** [obj[key]]: [None] stands for [undefined]. *)
Fixpoint getLane (obj : DrumSequencer) (key : string) : option (list bool) :=
  match obj with
  | [] => None
  | (k, steps) :: rest => if decide (k = key) then Some steps else getLane rest key
  end.

(** [{ ...obj, [key]: v }]: an existing key keeps its position, a new one
    is appended. *)
Fixpoint setLane (obj : DrumSequencer) (key : string) (v : list bool) : DrumSequencer :=
  match obj with
  | [] => [(key, v)]
  | (k, steps) :: rest =>
      if decide (k = key) then (k, v) :: rest else (k, steps) :: setLane rest key v
  end.

Definition stepTime (tempo : Q) : Q := (60 / tempo) * 1000 / 4.

(** [Object.entries(drumSequencer).forEach(...)] *)
Fixpoint forEachEntry (entries : DrumSequencer) (f : string → list bool → Audio unit)
    : Audio unit :=
  match entries with
  | [] => skip
  | (instrument, steps) :: rest => f instrument steps;; forEachEntry rest f
  end.

(** The part of the interval callback that triggers voices. *)
Definition tickVoices (a : App) : Audio unit :=
  (* Play synth note if active *)
  (if stepActive (synthSequencer a) (currentStep a)
   then playSynthNote (synthParams a) (effects a) (300 + Qnat (currentStep a) * 20)
   else skip);;
  (* Play drum sounds if active *)
  forEachEntry (drumSequencer a) (λ instrument steps,
    if stepActive steps (currentStep a)
    then playDrumSoundAny (drumParams a) instrument
    else skip).

(** The condition [compressionEnabled && duckKick && drumSequencer.kick[currentStep]];
    [None] when evaluating it throws (no [kick] property to index). *)
Definition duckCondition (a : App) : option bool :=
  if compressionEnabled (effects a) && duckKick (effects a)
  then steps ← getLane (drumSequencer a) "kick"; Some (stepActive steps (currentStep a))
  else Some false.

Definition setEngine (a : App) (e : Engine) (ts : list Q) (step : nat) : App :=
  {| synthParams := synthParams a; drumParams := drumParams a; currentStep := step;
     isPlaying := isPlaying a; effects := effects a; synthSequencer := synthSequencer a;
     drumSequencer := drumSequencer a; timeouts := ts; engine := e |}.

(** The [setInterval] callback.  [None]: the callback threw before
    reaching [setCurrentStep]. *)
Definition tick (a : App) : option App :=
  let stepTime := stepTime (tempo (drumParams a)) in
  let e := exec (tickVoices a) (engine a) in
  (* Duck compression gain if enabled and kick is playing *)
  duck ← duckCondition a;
  let '(e, ts) :=
    if duck && ready e
    then (exec (atNow (λ t, Automate DuckGain P_gain (setTargetAtTime 0.3 t 0.05))) e,
          timeouts a ++ [stepTime * 0.75])
    else (e, timeouts a) in
  Some (setEngine a e ts ((currentStep a + 1) mod 16)).

(** The [setTimeout] callback scheduled by a ducking tick. *)
Definition duckRestore : Audio unit :=
  whenReady (atNow (λ t, Automate DuckGain P_gain (setTargetAtTime 1 t 0.1))).

Definition fireTimeout (a : App) : App :=
  match timeouts a with
  | [] => a
  | _ :: ts => setEngine a (exec duckRestore (engine a)) ts (currentStep a)
  end.

(** ** Pattern editing *)

Definition toggleSynthSequencerStep (index : nat) (a : App) : App :=
  let newSequencer := synthSequencer a in
  let newSequencer := arrayAssign newSequencer index (negb (stepActive newSequencer index)) in
  {| synthParams := synthParams a; drumParams := drumParams a; currentStep := currentStep a;
     isPlaying := isPlaying a; effects := effects a; synthSequencer := newSequencer;
     drumSequencer := drumSequencer a; timeouts := timeouts a; engine := engine a |}.

(** The updater passed to [setDrumSequencer]; [None]: spreading
    [prev[instrument]] threw because the key is absent. *)
Definition toggleDrumLane (instrument : string) (index : nat) (prev : DrumSequencer)
    : option DrumSequencer :=
  steps ← getLane prev instrument;
  let newSteps := arrayAssign steps index (negb (stepActive steps index)) in
  Some (setLane prev instrument newSteps).

Definition toggleDrumSequencerStep (instrument : string) (index : nat) (a : App) : option App :=
  d ← toggleDrumLane instrument index (drumSequencer a);
  Some {| synthParams := synthParams a; drumParams := drumParams a;
          currentStep := currentStep a; isPlaying := isPlaying a; effects := effects a;
          synthSequencer := synthSequencer a; drumSequencer := d;
          timeouts := timeouts a; engine := engine a |}.

Definition togglePlay (a : App) : App :=
  {| synthParams := synthParams a; drumParams := drumParams a; currentStep := currentStep a;
     isPlaying := negb (isPlaying a); effects := effects a;
     synthSequencer := synthSequencer a; drumSequencer := drumSequencer a;
     timeouts := timeouts a; engine := engine a |}.

(** The state setters the control surface calls. *)
Definition setEffects (fx : EffectsGraphState) (a : App) : App :=
  {| synthParams := synthParams a; drumParams := drumParams a; currentStep := currentStep a;
     isPlaying := isPlaying a; effects := fx; synthSequencer := synthSequencer a;
     drumSequencer := drumSequencer a; timeouts := timeouts a; engine := engine a |}.

Definition setParams (sp : SynthParams) (dp : DrumParams) (a : App) : App :=
  {| synthParams := sp; drumParams := dp; currentStep := currentStep a;
     isPlaying := isPlaying a; effects := effects a; synthSequencer := synthSequencer a;
     drumSequencer := drumSequencer a; timeouts := timeouts a;
     engine := exec (updateDelayParams sp) (engine a) |}.

(** The audio clock moves forward between events. *)
Definition advanceClock (dt : Q) (e : Engine) : Engine :=
  {| ready := ready e; currentTime := currentTime e + dt; nextId := nextId e;
     edges := edges e; calls := calls e |}.

(** ** Runs of the component: every way its state changes.  The control
    surface shows one button per element of a pattern, so a toggle's index
    is within the pattern. *)
Inductive step : App → App → Prop :=
  | step_mount a :
      ready (engine a) = false →
      step a (setEngine a (exec mountEffect (engine a)) (timeouts a) (currentStep a))
  | step_tick a a' :
      isPlaying a = true → tick a = Some a' → step a a'
  | step_timeout a :
      step a (fireTimeout a)
  | step_clock a dt :
      0 <= dt →
      step a (setEngine a (advanceClock dt (engine a)) (timeouts a) (currentStep a))
  | step_togglePlay a :
      step a (togglePlay a)
  | step_toggleSynth a index :
      (index < length (synthSequencer a))%nat →
      step a (toggleSynthSequencerStep index a)
  | step_toggleDrum a a' instrument steps index :
      getLane (drumSequencer a) instrument = Some steps →
      (index < length steps)%nat →
      toggleDrumSequencerStep instrument index a = Some a' → step a a'
  | step_setEffects a fx :
      step a (setEffects fx a)
  | step_setParams a sp dp :
      step a (setParams sp dp a).

Definition reachable (a : App) : Prop := rtc step initialApp a.

(** ** Observations on the engine *)

Global Instance ParamName_eq_dec : EqDecision ParamName.
Proof. solve_decision. Defined.

(** The calls made between two engine states. *)
Definition newCalls (before after : Engine) : list ApiCall :=
  drop (length (calls before)) (calls after).

(** The automation events scheduled on one parameter, in call order. *)
Definition timeline (cs : list ApiCall) (n : AudioNode) (p : ParamName)
    : list AutomationEvent :=
  omap (λ c, match c with
             | Automate n' p' ev => if decide (n' = n ∧ p' = p) then Some ev else None
             | _ => None
             end) cs.

(** The node a call is made on. *)
Definition callNode (c : ApiCall) : option AudioNode :=
  match c with
  | Create n | SetBuffer n _ | SetOscType n _ | SetFilterType n _
  | SetValue n _ _ | Automate n _ _ | Start n _ | Stop n _ => Some n
  | CreateNoiseBuffer _ _ => None
  end.

Definition isVoice (n : AudioNode) : bool :=
  match n with Voice _ _ => true | _ => false end.

(** A call that concerns a per-trigger object only. *)
Definition voiceCall (c : ApiCall) : bool :=
  match callNode c with Some n => isVoice n | None => true end.

(** Frequencies assigned through [osc.frequency.value = f]; only the
    melodic voice sets an oscillator's pitch this way. *)
Definition melodicFrequencies (cs : list ApiCall) : list Q :=
  omap (λ c, match c with
             | SetValue (Voice Oscillator _) P_frequency f => Some f
             | _ => None
             end) cs.

(** End times of the exponential ramps among the calls. *)
Definition exponentialRampTimes (cs : list ApiCall) : list Q :=
  omap (λ c, match c with
             | Automate _ _ (exponentialRampToValueAtTime _ endTime) => Some endTime
             | _ => None
             end) cs.

(** Connections that leave a long-lived node: the effects graph proper,
    without the per-voice wiring. *)
Definition effectsEdges (g : Graph) : Graph := filter (λ c, isVoice c.1 = false) g.

(** The connections every run of the component stays within. *)
Definition allowed (c : Edge) : bool :=
  match c with
  | (Voice _ _, (Voice _ _ | KickGain | MasterGain | DelayNode | ReverbConvolver
                 | CompressionNode | Destination)) => true
  | (KickGain, MasterGain) => true
  | (MasterGain, CompressionNode) => true
  | (DelayNode, (DelayFeedbackGain | ReverbConvolver | MasterGain | CompressionNode
                 | Destination)) => true
  | (DelayFeedbackGain, DelayNode) => true
  | (ReverbConvolver, (CompressionNode | Destination)) => true
  | (CompressionNode, Destination) => true
  | _ => false
  end.

Definition wellWired (g : Graph) : Prop := ∀ c, c ∈ g → allowed c = true.

(** ** The topology contract, as the specification words it *)

Definition computeTopology (fx : EffectsGraphState) : list AudioNode :=
  (if delayEnabled fx then [DelayNode] else [])
  ++ (if reverbEnabled fx then [ReverbConvolver] else [])
  ++ (if compressionEnabled fx then [CompressionNode] else []).

(** source -> stage -> ... -> stage -> hardware output *)
Fixpoint chain (source : AudioNode) (stages : list AudioNode) : list Edge :=
  match stages with
  | [] => [(source, Destination)]
  | stage :: rest => (source, stage) :: chain stage rest
  end.

(** The four checkboxes: [onChange={() => setXEnabled(!xEnabled)}]. *)
Inductive EffectFlag := F_delay | F_reverb | F_compression | F_duckKick.

Definition toggleEffect (flag : EffectFlag) (fx : EffectsGraphState) : EffectsGraphState :=
  match flag with
  | F_delay =>
      {| delayEnabled := negb (delayEnabled fx); reverbEnabled := reverbEnabled fx;
         compressionEnabled := compressionEnabled fx; duckKick := duckKick fx |}
  | F_reverb =>
      {| delayEnabled := delayEnabled fx; reverbEnabled := negb (reverbEnabled fx);
         compressionEnabled := compressionEnabled fx; duckKick := duckKick fx |}
  | F_compression =>
      {| delayEnabled := delayEnabled fx; reverbEnabled := reverbEnabled fx;
         compressionEnabled := negb (compressionEnabled fx); duckKick := duckKick fx |}
  | F_duckKick =>
      {| delayEnabled := delayEnabled fx; reverbEnabled := reverbEnabled fx;
         compressionEnabled := compressionEnabled fx; duckKick := negb (duckKick fx) |}
  end.

(** ** Parameter automation, after the Web Audio timeline rules

    The browser keeps a parameter's events ordered by time, events with
    equal times in call order, and renders the value piecewise:
    [setValueAtTime] holds its value, a linear ramp interpolates from the
    previous event to its end point, [setTargetAtTime] approaches the target
    as [target + (v0 - target) * e^(-(t - start) / timeConstant)], or jumps
    to the target at its start time when the time constant is zero, and an
    exponential ramp interpolates geometrically.  The two transcendental
    functions are parameters of the model. *)

Definition eventTime (ev : AutomationEvent) : Q :=
  match ev with
  | setValueAtTime _ t | linearRampToValueAtTime _ t
  | exponentialRampToValueAtTime _ t | setTargetAtTime _ t _ => t
  end.

Fixpoint insertEvent (ev : AutomationEvent) (evs : list AutomationEvent)
    : list AutomationEvent :=
  match evs with
  | [] => [ev]
  | x :: rest =>
      if Qlt_le_dec (eventTime ev) (eventTime x) then ev :: x :: rest
      else x :: insertEvent ev rest
  end.

Definition scheduled (evs : list AutomationEvent) : list AutomationEvent :=
  foldl (λ acc ev, insertEvent ev acc) [] evs.

Section Automation.
Variable expDecay : Q → Q.        (* x |-> e^(-x) *)
Variable power : Q → Q → Q.       (* b, x |-> b^x *)

(** [t0], [v0]: time and value reached by the previous event; [hold]:
    the value from there on for as long as no later event takes over. *)
Fixpoint valueFrom (t0 v0 : Q) (hold : Q → Q) (evs : list AutomationEvent) (t : Q) : Q :=
  match evs with
  | [] => hold t
  | setValueAtTime v T :: rest =>
      if Qlt_le_dec t T then hold t else valueFrom T v (λ _, v) rest t
  | linearRampToValueAtTime v T :: rest =>
      if Qlt_le_dec t T then v0 + (v - v0) * ((t - t0) / (T - t0))
      else valueFrom T v (λ _, v) rest t
  | exponentialRampToValueAtTime v T :: rest =>
      if Qlt_le_dec t T then v0 * power (v / v0) ((t - t0) / (T - t0))
      else valueFrom T v (λ _, v) rest t
  | setTargetAtTime target T timeConstant :: rest =>
      if Qlt_le_dec t T then hold t
      else if Qeq_dec timeConstant 0 then
        (* a zero time constant: the value jumps to the target at [T] *)
        valueFrom T target (λ _, target) rest t
      else
        let vT := hold T in
        valueFrom T vT (λ t', target + (vT - target) * expDecay ((t' - T) / timeConstant))
                  rest t
  end.

(** The value of a parameter created at [t0] with value [v0], after the
    given calls, at time [t]. *)
Definition paramValue (cs : list ApiCall) (n : AudioNode) (p : ParamName)
    (t0 v0 t : Q) : Q :=
  valueFrom t0 v0 (λ _, v0) (scheduled (timeline cs n p)) t.
End Automation.

(** ** Definitions used in the statements below *)

Definition synthCalls (sp : SynthParams) (frequency now : Q) (id : nat) : list ApiCall :=
  let osc := Voice Oscillator id in
  let gainNode := Voice Gain (S id) in
  let filter := Voice BiquadFilter (S (S id)) in
  [ Create osc; SetOscType osc (wave (oscillatorType sp)); SetValue osc P_frequency frequency;
    Create gainNode; SetValue gainNode P_gain 0;
    Create filter; SetFilterType filter lowpass; SetValue filter P_frequency 20000;
    SetValue filter P_Q (resonance sp / 10);
    Automate gainNode P_gain (setValueAtTime 0 now);
    Automate gainNode P_gain (linearRampToValueAtTime 1 (now + attack sp / 100));
    Automate gainNode P_gain
      (linearRampToValueAtTime (sustain sp / 100) (now + attack sp / 100 + decay sp / 100));
    Automate filter P_frequency (setValueAtTime 20000 now);
    Automate filter P_frequency (linearRampToValueAtTime (cutoff sp * 200) (now + 0.1));
    Start osc (Some now);
    Automate gainNode P_gain
      (setTargetAtTime 0 (now + attack sp / 100 + decay sp / 100) (release sp / 100 / 10));
    Stop osc (now + attack sp / 100 + decay sp / 100 + release sp / 100 + 0.1) ].

(** The decay parameter a trigger reads, in milliseconds. *)
Definition decayOf (dp : DrumParams) (type : DrumType) : Q :=
  match type with
  | kick => kickDecay dp | snare => snareDecay dp | hihat => hiHatDecay dp
  | tom => tomDecay dp | clap => clapDecay dp | perc => percDecay dp
  end.

(** The calls of one drum trigger, made at time [t] with allocation
    counter [id]. *)
Definition drumCalls (dp : DrumParams) (type : DrumType) (t : Q) (id : nat) : list ApiCall :=
  match type with
  | kick =>
      let osc := Voice Oscillator id in
      let gainNode := Voice Gain (S id) in
      [ Create osc; Create gainNode;
        Automate osc P_frequency (setValueAtTime (150 + kickTone dp * 5) t);
        Automate gainNode P_gain (setValueAtTime 1 t);
        SetOscType osc sine;
        Start osc None;
        Automate osc P_frequency (exponentialRampToValueAtTime 20 (t + kickDecay dp / 1000));
        Automate gainNode P_gain (exponentialRampToValueAtTime 0.001 (t + kickDecay dp / 1000));
        Stop osc (t + kickDecay dp / 1000 + 0.05) ]
  | snare =>
      let noise := Voice BufferSource (S id) in
      let noiseGain := Voice Gain (S (S id)) in
      let osc := Voice Oscillator (S (S (S id))) in
      let oscGain := Voice Gain (S (S (S (S id)))) in
      [ CreateNoiseBuffer id 0.2; Create noise; SetBuffer noise id; Create noiseGain;
        Automate noiseGain P_gain (setValueAtTime 0.5 t);
        Create osc; Create oscGain; SetOscType osc (wave triangle);
        Automate osc P_frequency (setValueAtTime (100 + snareTone dp * 2) t);
        Automate oscGain P_gain (setValueAtTime 0.3 t);
        Start noise None; Start osc None;
        Automate noiseGain P_gain (exponentialRampToValueAtTime 0.01 (t + snareDecay dp / 1000));
        Automate oscGain P_gain (exponentialRampToValueAtTime 0.01 (t + snareDecay dp / 1000));
        Stop noise (t + snareDecay dp / 1000); Stop osc (t + snareDecay dp / 1000) ]
  | hihat =>
      let noise := Voice BufferSource (S id) in
      let noiseGain := Voice Gain (S (S id)) in
      let hp := Voice BiquadFilter (S (S (S id))) in
      [ CreateNoiseBuffer id 0.2; Create noise; SetBuffer noise id; Create noiseGain;
        Automate noiseGain P_gain (setValueAtTime 0.3 t);
        Create hp; SetFilterType hp highpass;
        Automate hp P_frequency (setValueAtTime (7000 - hiHatOpen dp * 50) t);
        Start noise None;
        Automate noiseGain P_gain (exponentialRampToValueAtTime 0.01 (t + hiHatDecay dp / 1000));
        Stop noise (t + hiHatDecay dp / 1000) ]
  | tom =>
      let osc := Voice Oscillator id in
      let gainNode := Voice Gain (S id) in
      [ Create osc; Create gainNode; SetOscType osc sine;
        Automate osc P_frequency (setValueAtTime (tomTone dp) t);
        Automate gainNode P_gain (setValueAtTime 0.7 t);
        Start osc None;
        Automate gainNode P_gain (exponentialRampToValueAtTime 0.01 (t + tomDecay dp / 1000));
        Stop osc (t + tomDecay dp / 1000 + 0.05) ]
  | clap =>
      let noise := Voice BufferSource (S id) in
      let noiseGain := Voice Gain (S (S id)) in
      [ CreateNoiseBuffer id 0.2; Create noise; SetBuffer noise id; Create noiseGain;
        Automate noiseGain P_gain (setValueAtTime 0.5 t);
        Start noise None;
        Automate noiseGain P_gain (exponentialRampToValueAtTime 0.01 (t + clapDecay dp / 1000));
        Stop noise (t + clapDecay dp / 1000) ]
  | perc =>
      let osc := Voice Oscillator id in
      let gainNode := Voice Gain (S id) in
      [ Create osc; Create gainNode; SetOscType osc (wave sawtooth);
        Automate osc P_frequency (setValueAtTime (percTone dp) t);
        Automate gainNode P_gain (setValueAtTime 0.5 t);
        Start osc None;
        Automate gainNode P_gain (exponentialRampToValueAtTime 0.01 (t + percDecay dp / 1000));
        Stop osc (t + percDecay dp / 1000 + 0.05) ]
  end.

(** The sound generators a trigger creates, and the connections it makes. *)
Definition drumSources (type : DrumType) (id : nat) : list AudioNode :=
  match type with
  | kick | tom | perc => [Voice Oscillator id]
  | snare => [Voice BufferSource (S id); Voice Oscillator (S (S (S id)))]
  | hihat | clap => [Voice BufferSource (S id)]
  end.

Definition drumEdges (type : DrumType) (id : nat) : list Edge :=
  match type with
  | kick =>
      [ (Voice Oscillator id, Voice Gain (S id)); (Voice Gain (S id), KickGain);
        (KickGain, MasterGain) ]
  | snare =>
      [ (Voice BufferSource (S id), Voice Gain (S (S id))); (Voice Gain (S (S id)), MasterGain);
        (Voice Oscillator (S (S (S id))), Voice Gain (S (S (S (S id)))));
        (Voice Gain (S (S (S (S id)))), MasterGain) ]
  | hihat =>
      [ (Voice BufferSource (S id), Voice BiquadFilter (S (S (S id))));
        (Voice BiquadFilter (S (S (S id))), Voice Gain (S (S id)));
        (Voice Gain (S (S id)), MasterGain) ]
  | tom | perc =>
      [ (Voice Oscillator id, Voice Gain (S id)); (Voice Gain (S id), MasterGain) ]
  | clap =>
      [ (Voice BufferSource (S id), Voice Gain (S (S id))); (Voice Gain (S (S id)), MasterGain) ]
  end.

(** What a run of drum triggers does to the engine: it adds calls on
    voice objects only, none of them a melodic pitch assignment, and keeps
    the wiring within [allowed]. *)
Record drumsOnly (e e' : Engine) : Prop := {
  drums_ready : ready e' = ready e;
  drums_time : currentTime e' = currentTime e;
  drums_wired : wellWired (edges e) → wellWired (edges e');
  drums_calls : ∃ delta, calls e' = calls e ++ delta
                         ∧ Forall (λ c, voiceCall c = true) delta
                         ∧ melodicFrequencies delta = [];
}.

(** One toggle of a pattern, as both handlers compute it. *)
Definition toggled arr i : list bool := arrayAssign arr i (negb (stepActive arr i)).

Record appInv (a : App) : Prop := {
  inv_step : (currentStep a < 16)%nat;
  inv_wired : wellWired (edges (engine a));
  inv_duck : ready (engine a) = true → Create DuckGain ∈ calls (engine a);
  inv_kick : is_Some (getLane (drumSequencer a) "kick");
  inv_synth : length (synthSequencer a) = 16%nat;
  inv_drums : Forall (λ kv, length kv.2 = 16%nat) (drumSequencer a);
}.

Definition mountedEngine : Engine := exec mountEffect initialEngine.

Definition allEffects : EffectsGraphState :=
  {| delayEnabled := true; reverbEnabled := true; compressionEnabled := true; duckKick := true |}.

Definition noEffects : EffectsGraphState :=
  {| delayEnabled := false; reverbEnabled := false; compressionEnabled := false;
     duckKick := false |}.

(** The part of the chain that lies between long-lived nodes. *)
Definition stageEdges (fx : EffectsGraphState) : list Edge :=
  match computeTopology fx with
  | [] => []
  | stage :: rest => chain stage rest
  end.

(** What routing one voice does to the connections of the long-lived
    nodes: an enabled delay or reverb loses its outgoing connections and
    gets the one of the chain; the compressor only gains one. *)
Definition restage (fx : EffectsGraphState) (g : Graph) : Graph :=
  list_to_set (stageEdges fx)
  ∪ filter (λ c, (delayEnabled fx = true → c.1 ≠ DelayNode)
                 ∧ (reverbEnabled fx = true → c.1 ≠ ReverbConvolver)) g.

(** A note played after one toggle of [flag], and another one after the
    flag has been toggled back. *)
Definition retrigger (flag : EffectFlag) (fx : EffectsGraphState) (sp : SynthParams)
    (f1 f2 : Q) : Audio unit :=
  playSynthNote sp (toggleEffect flag fx) f1;;
  playSynthNote sp (toggleEffect flag (toggleEffect flag fx)) f2.

Definition afterDelayRoundTrip : Engine :=
  exec (retrigger F_delay noEffects defaultSynthParams 300 320) mountedEngine.

Definition zeroKickDecay : DrumParams := {|
  kickTone := 50; kickDecay := 0; snareNoise := 50; snareTone := 50; snareDecay := 150;
  hiHatOpen := 50; hiHatDecay := 80; tomTone := 100; tomDecay := 300; clapDecay := 150;
  percTone := 800; percDecay := 100; tempo := 120;
|}.

(** The default sound with the release control at its lowest setting. *)
Definition zeroRelease : SynthParams := {|
  oscillatorType := sawtooth; cutoff := 50; resonance := 20;
  attack := 20; decay := 40; sustain := 70; release := 0;
  delayTime := 30; delayFeedback := 40;
|}.

(** The nodes of the effects routing graph and the hardware output. *)
Definition effectNodes : list AudioNode :=
  [DelayNode; DelayFeedbackGain; ReverbConvolver; CompressionNode; DuckGain; Destination].

(** There is a path of connections from [a] to [b]. *)
Definition reaches (g : Graph) (a b : AudioNode) : Prop := rtc (λ x y, (x, y) ∈ g) a b.

(** The sequencer effect: while playing, [setInterval(callback, stepTime)]. *)
Definition sequencerInterval (a : App) : option Q :=
  if isPlaying a then Some (stepTime (tempo (drumParams a))) else None.

Definition mountedApp : App :=
  setEngine initialApp (exec mountEffect (engine initialApp)) (timeouts initialApp)
    (currentStep initialApp).

(** Mounted, melodic step 0 and kick step 0 switched on, every effect
    enabled, transport running. *)
Definition demoApp : App :=
  let a := toggleSynthSequencerStep 0 mountedApp in
  let a := default a (toggleDrumSequencerStep "kick" 0 a) in
  togglePlay (setEffects allEffects a).

Definition linearDecay (x : Q) : Q := 1 - x.

(** ** Further definitions: wiring invariants and lifetimes *)

(** Every long-lived stage has a route onward: what is connected into the
    master bus, the delay, the reverb or the compressor can get to the
    hardware output. *)
Definition routed (g : Graph) : Prop :=
  (CompressionNode, Destination) ∈ g
  ∧ (MasterGain, CompressionNode) ∈ g
  ∧ ((ReverbConvolver, CompressionNode) ∈ g ∨ (ReverbConvolver, Destination) ∈ g)
  ∧ ((DelayNode, ReverbConvolver) ∈ g ∨ (DelayNode, CompressionNode) ∈ g
     ∨ (DelayNode, Destination) ∈ g).

(** The allocation number of a voice node. *)
Definition voiceId (n : AudioNode) : option nat :=
  match n with Voice _ id => Some id | _ => None end.

(** No connection mentions a voice node that has not been allocated yet. *)
Definition allocated (next : nat) (g : Graph) : Prop :=
  ∀ a b id, (a, b) ∈ g → voiceId a = Some id ∨ voiceId b = Some id → (id < next)%nat.

(** The nodes started and the nodes stopped among the calls, with the
    time given to [stop]. *)
Definition startedNodes (cs : list ApiCall) : list AudioNode :=
  omap (λ c, match c with Start n _ => Some n | _ => None end) cs.

Definition stopTimes (cs : list ApiCall) : list (AudioNode * Q) :=
  omap (λ c, match c with Stop n t => Some (n, t) | _ => None end) cs.

(** When a drum trigger stops its generators: oscillator-only voices
    50 ms after the end of the decay, voices with a noise source at the
    end of the decay. *)
Definition drumStopTime (dp : DrumParams) (type : DrumType) (t : Q) : Q :=
  match type with
  | kick | tom | perc => t + decayOf dp type / 1000 + 0.05
  | snare | hihat | clap => t + decayOf dp type / 1000
  end.

(** [n] ticks of the interval callback in a row. *)
Fixpoint ticks (n : nat) (a : App) : option App :=
  match n with
  | O => Some a
  | S n' => a' ← tick a; ticks n' a'
  end.

(** The state after one tick of [demoApp]: the kick has been ducked and
    the restoring timeout is pending. *)
Definition duckedApp : App := default demoApp (tick demoApp).

(** A property [P] of the allocation counter and the connections holds of
    an engine once it is mounted; before that there are no connections. *)
Definition holdsWiring (P : nat → Graph → Prop) (e : Engine) : Prop :=
  (ready e = false → edges e = ∅) ∧ (ready e = true → P (nextId e) (edges e)).

(** ** Parameter edits: [handleDrumParamChange] *)

(** [keyof DrumParams] *)
Inductive DrumParamKey :=
  | K_kickTone | K_kickDecay | K_snareNoise | K_snareTone | K_snareDecay
  | K_hiHatOpen | K_hiHatDecay | K_tomTone | K_tomDecay | K_clapDecay
  | K_percTone | K_percDecay | K_tempo.

Global Instance DrumParamKey_eq_dec : EqDecision DrumParamKey.
Proof. solve_decision. Defined.

(** [{ ...prev, [param]: value }] *)
Definition handleDrumParamChange (param : DrumParamKey) (value : Q) (prev : DrumParams)
    : DrumParams :=
  let upd k old := if decide (param = k) then value else old in
  {| kickTone := upd K_kickTone (kickTone prev);
     kickDecay := upd K_kickDecay (kickDecay prev);
     snareNoise := upd K_snareNoise (snareNoise prev);
     snareTone := upd K_snareTone (snareTone prev);
     snareDecay := upd K_snareDecay (snareDecay prev);
     hiHatOpen := upd K_hiHatOpen (hiHatOpen prev);
     hiHatDecay := upd K_hiHatDecay (hiHatDecay prev);
     tomTone := upd K_tomTone (tomTone prev);
     tomDecay := upd K_tomDecay (tomDecay prev);
     clapDecay := upd K_clapDecay (clapDecay prev);
     percTone := upd K_percTone (percTone prev);
     percDecay := upd K_percDecay (percDecay prev);
     tempo := upd K_tempo (tempo prev) |}.

(** The parameters each case of [playDrumSound] reads. *)
Definition paramsRead (type : DrumType) : list DrumParamKey :=
  match type with
  | kick => [K_kickTone; K_kickDecay]
  | snare => [K_snareTone; K_snareDecay]
  | hihat => [K_hiHatOpen; K_hiHatDecay]
  | tom => [K_tomTone; K_tomDecay]
  | clap => [K_clapDecay]
  | perc => [K_percTone; K_percDecay]
  end.

(** Target values of the exponential ramps among the calls. *)
Definition exponentialRampTargets (cs : list ApiCall) : list Q :=
  omap (λ c, match c with
             | Automate _ _ (exponentialRampToValueAtTime value _) => Some value
             | _ => None
             end) cs.

(** The per-hit gain stages of a drum trigger, each with its start level
    and the floor its exponential ramp ends at. *)
Definition drumGains (type : DrumType) (id : nat) : list (AudioNode * (Q * Q)) :=
  match type with
  | kick => [(Voice Gain (S id), (1, 0.001))]
  | snare => [(Voice Gain (S (S id)), (0.5, 0.01)); (Voice Gain (S (S (S (S id)))), (0.3, 0.01))]
  | hihat => [(Voice Gain (S (S id)), (0.3, 0.01))]
  | tom => [(Voice Gain (S id), (0.7, 0.01))]
  | clap => [(Voice Gain (S (S id)), (0.5, 0.01))]
  | perc => [(Voice Gain (S id), (0.5, 0.01))]
  end.

(** The node whose frequency a drum trigger sets once and leaves, with
    that frequency: the snare, tom and perc oscillators and the hi-hat's
    highpass filter. *)
Definition drumTuning (dp : DrumParams) (type : DrumType) (id : nat) : list (AudioNode * Q) :=
  match type with
  | kick | clap => []
  | snare => [(Voice Oscillator (S (S (S id))), 100 + snareTone dp * 2)]
  | hihat => [(Voice BiquadFilter (S (S (S id))), 7000 - hiHatOpen dp * 50)]
  | tom => [(Voice Oscillator id, tomTone dp)]
  | perc => [(Voice Oscillator id, percTone dp)]
  end.

(** The number of objects a drum trigger allocates. *)
Definition drumAllocations (type : DrumType) : nat :=
  match type with
  | kick | tom | perc => 2 | clap => 3 | hihat => 4 | snare => 5
  end.

(** The calls the drum part of a tick is expected to make at time [t] with
    allocation counter [id]: the calls of each active lane in the order of
    the pattern's keys, a key that names no drum contributing nothing. *)
Fixpoint expectedDrumCalls (dp : DrumParams) (step : nat) (entries : DrumSequencer)
    (t : Q) (id : nat) : list ApiCall :=
  match entries with
  | [] => []
  | (instrument, steps) :: rest =>
      match (if stepActive steps step then drumOfString instrument else None) with
      | Some type =>
          drumCalls dp type t id
          ++ expectedDrumCalls dp step rest t (id + drumAllocations type)
      | None => expectedDrumCalls dp step rest t id
      end
  end.

(** ** Buffer contents: [createNoiseBuffer] and the fallback impulse

    [Math.random()] is a stream of numbers in [0, 1); [random k] is the
    k-th draw.  The channel data is a [Float32Array]: an assignment to an
    element rounds the assigned number to single precision, [store] being
    that rounding.  Buffer lengths ([sampleRate * 0.2], [sampleRate * 0.3])
    are taken as whole numbers of samples. *)

(** [data[i] = Math.random() * 2 - 1] for [i < bufferSize], the draws
    starting at number [k0]. *)
Definition noiseData (random : nat → Q) (store : Q → Q) (bufferSize k0 : nat) : list Q :=
  (λ i, store (random (k0 + i)%nat * 2 - 1)) <$> seq 0 bufferSize.

(** [(Math.random() * 2 - 1) * Math.pow(1 - i / length, 2)], the number
    assigned to [channelData[i]]. *)
Definition impulseValue (random : nat → Q) (length k0 i : nat) : Q :=
  (random (k0 + i)%nat * 2 - 1) * ((1 - Qnat i / Qnat length) * (1 - Qnat i / Qnat length)).

(** [channelData[i]] after the assignment. *)
Definition impulseSample (random : nat → Q) (store : Q → Q) (length k0 i : nat) : Q :=
  store (impulseValue random length k0 i).

(** The two channels, filled one after the other. *)
Definition impulseData (random : nat → Q) (store : Q → Q) (length : nat) : list (list Q) :=
  (λ channel, (λ i, impulseSample random store length (channel * length) i) <$> seq 0 length)
    <$> [0; 1]%nat.

(** A coarse rounding for concrete runs: numbers from 0.9 to 1 are stored
    as 1, every other number as it is. *)
Definition coarseStore (x : Q) : Q :=
  if Qle_bool 0.9 x && Qle_bool x 1 then 1 else x.

(** * Verification *)

(** ** Symbolic execution of the engine operations *)

(** Runs an operation on an engine given by its fields. *)
Ltac run_audio :=
  cbv [exec whenReady create atNow createNoiseBuffer connect disconnect rewire
       record fresh ctxCurrentTime skip mbind mret Audio_bind Audio_ret fst snd
       ready currentTime nextId edges calls
       delayEnabled reverbEnabled compressionEnabled duckKick
       connectToEffectsChain playSynthNote playDrumSound mountEffect updateDelayParams
       duckRestore].

Ltac open_engine e :=
  let r := fresh "r" in
  destruct e as [r ? ? ? ?];
  cbn [ready currentTime nextId edges calls] in *; subst r.

Lemma newCalls_app e e' delta : calls e' = calls e ++ delta → newCalls e e' = delta.
Proof. intros H. unfold newCalls. rewrite H. by rewrite drop_app_length. Qed.

Lemma whenReady_not_ready m e : ready e = false → exec (whenReady m) e = e.
Proof. intros H. unfold exec, whenReady. by rewrite H. Qed.

(** *** Routing *)

Lemma connectToEffectsChain_frame fx n e :
  let e' := exec (connectToEffectsChain fx n) e in
  ready e' = ready e ∧ currentTime e' = currentTime e
  ∧ nextId e' = nextId e ∧ calls e' = calls e.
Proof.
  destruct e as [[] t i g cs]; destruct fx as [[] [] [] ?]; run_audio; done.
Qed.

(** The connections after routing a voice node: the chain of the enabled
    stages, and what was there before except the old outgoing connections
    of the source, of the delay and of the reverb when they are enabled. *)
Lemma connectToEffectsChain_edges fx k id e :
  ready e = true →
  edges (exec (connectToEffectsChain fx (Voice k id)) e) =
    list_to_set (chain (Voice k id) (computeTopology fx))
    ∪ filter (λ c, c.1 ≠ Voice k id
                   ∧ (delayEnabled fx = true → c.1 ≠ DelayNode)
                   ∧ (reverbEnabled fx = true → c.1 ≠ ReverbConvolver)) (edges e).
Proof.
  intros Hr. open_engine e.
  destruct fx as [[] [] [] ?]; run_audio; cbn; set_solver.
Qed.

Lemma allowed_chain k id fx c :
  c ∈ chain (Voice k id) (computeTopology fx) → allowed c = true.
Proof.
  destruct fx as [[] [] [] ?]; cbn; set_unfold; intros H;
    repeat destruct H as [H | H]; by subst.
Qed.

Lemma connectToEffectsChain_wellWired fx k id e :
  wellWired (edges e) → wellWired (edges (exec (connectToEffectsChain fx (Voice k id)) e)).
Proof.
  intros Hw. destruct (ready e) eqn:Hr.
  - rewrite connectToEffectsChain_edges by done. intros c [Hc | Hc]%elem_of_union.
    + apply elem_of_list_to_set in Hc. by eapply allowed_chain.
    + apply elem_of_filter in Hc as [_ Hc]. by apply Hw.
  - unfold connectToEffectsChain. by rewrite whenReady_not_ready.
Qed.

(** *** The melodic voice *)

Lemma playSynthNote_calls sp fx f e :
  ready e = true →
  calls (exec (playSynthNote sp fx f) e) = calls e ++ synthCalls sp f (currentTime e) (nextId e).
Proof.
  intros Hr. open_engine e.
  destruct fx as [[] [] [] ?]; run_audio; rewrite <- !app_assoc; reflexivity.
Qed.

Lemma playSynthNote_frame sp fx f e :
  let e' := exec (playSynthNote sp fx f) e in
  ready e' = ready e ∧ currentTime e' = currentTime e.
Proof.
  destruct e as [[] t i g cs]; destruct fx as [[] [] [] ?]; run_audio; done.
Qed.

Lemma playSynthNote_edges sp fx f e :
  ready e = true →
  edges (exec (playSynthNote sp fx f) e) =
    let osc := Voice Oscillator (nextId e) in
    let gainNode := Voice Gain (S (nextId e)) in
    let source := Voice BiquadFilter (S (S (nextId e))) in
    list_to_set (chain source (computeTopology fx))
    ∪ filter (λ c, c.1 ≠ source
                   ∧ (delayEnabled fx = true → c.1 ≠ DelayNode)
                   ∧ (reverbEnabled fx = true → c.1 ≠ ReverbConvolver))
        ({[ (gainNode, source) ]} ∪ ({[ (osc, gainNode) ]} ∪ edges e)).
Proof.
  intros Hr. open_engine e.
  destruct fx as [[] [] [] ?]; run_audio; cbn; set_solver.
Qed.

Lemma playSynthNote_wellWired sp fx f e :
  wellWired (edges e) → wellWired (edges (exec (playSynthNote sp fx f) e)).
Proof.
  intros Hw. destruct (ready e) eqn:Hr.
  - rewrite playSynthNote_edges by done. intros c [Hc | Hc]%elem_of_union.
    + apply elem_of_list_to_set in Hc. by eapply allowed_chain.
    + apply elem_of_filter in Hc as [_ Hc]. set_unfold.
      destruct Hc as [-> | [-> | Hc]]; [done | done | by apply Hw].
  - unfold playSynthNote. by rewrite whenReady_not_ready.
Qed.

(** *** The drum voices *)

Lemma playDrumSound_calls dp type e :
  ready e = true →
  calls (exec (playDrumSound dp type) e) = calls e ++ drumCalls dp type (currentTime e) (nextId e).
Proof.
  intros Hr. open_engine e.
  destruct type; run_audio; rewrite <- !app_assoc; reflexivity.
Qed.

Lemma playDrumSound_edges dp type e :
  ready e = true →
  edges (exec (playDrumSound dp type) e) = list_to_set (drumEdges type (nextId e)) ∪ edges e.
Proof.
  intros Hr. open_engine e.
  destruct type; run_audio; cbn; set_solver.
Qed.

Lemma playDrumSound_frame dp type e :
  let e' := exec (playDrumSound dp type) e in
  ready e' = ready e ∧ currentTime e' = currentTime e.
Proof. destruct e as [[] t i g cs]; destruct type; run_audio; done. Qed.

Lemma allowed_drumEdges type id c : c ∈ drumEdges type id → allowed c = true.
Proof.
  destruct type; cbn; set_unfold; intros H; repeat destruct H as [H | H]; by subst.
Qed.

Lemma playDrumSound_wellWired dp type e :
  wellWired (edges e) → wellWired (edges (exec (playDrumSound dp type) e)).
Proof.
  intros Hw. destruct (ready e) eqn:Hr.
  - rewrite playDrumSound_edges by done. intros c [Hc | Hc]%elem_of_union.
    + apply elem_of_list_to_set in Hc. by eapply allowed_drumEdges.
    + by apply Hw.
  - unfold playDrumSound. by rewrite whenReady_not_ready.
Qed.

Lemma voiceCall_synthCalls sp f t id : Forall (λ c, voiceCall c = true) (synthCalls sp f t id).
Proof. repeat constructor. Qed.

Lemma voiceCall_drumCalls dp type t id : Forall (λ c, voiceCall c = true) (drumCalls dp type t id).
Proof. destruct type; repeat constructor. Qed.

Lemma melodicFrequencies_synthCalls sp f t id : melodicFrequencies (synthCalls sp f t id) = [f].
Proof. reflexivity. Qed.

Lemma melodicFrequencies_drumCalls dp type t id : melodicFrequencies (drumCalls dp type t id) = [].
Proof. by destruct type. Qed.

(** *** The sequencer callback *)

Lemma melodicFrequencies_app cs1 cs2 :
  melodicFrequencies (cs1 ++ cs2) = melodicFrequencies cs1 ++ melodicFrequencies cs2.
Proof. apply omap_app. Qed.

Lemma drumsOnly_refl e : drumsOnly e e.
Proof.
  split; try done. exists []. by rewrite app_nil_r.
Qed.

Lemma drumsOnly_trans e1 e2 e3 : drumsOnly e1 e2 → drumsOnly e2 e3 → drumsOnly e1 e3.
Proof.
  intros [Hr1 Ht1 Hw1 (d1 & Hc1 & Hv1 & Hm1)] [Hr2 Ht2 Hw2 (d2 & Hc2 & Hv2 & Hm2)].
  split; [congruence | congruence | auto |].
  exists (d1 ++ d2). split_and!.
  - by rewrite Hc2, Hc1, app_assoc.
  - by apply Forall_app.
  - by rewrite melodicFrequencies_app, Hm1, Hm2.
Qed.

Lemma playDrumSound_drumsOnly dp type e : drumsOnly e (exec (playDrumSound dp type) e).
Proof.
  destruct (ready e) eqn:Hr.
  - destruct (playDrumSound_frame dp type e) as [? ?].
    split; [done | done | apply playDrumSound_wellWired |].
    exists (drumCalls dp type (currentTime e) (nextId e)). split_and!.
    + by apply playDrumSound_calls.
    + apply voiceCall_drumCalls.
    + apply melodicFrequencies_drumCalls.
  - unfold playDrumSound. rewrite whenReady_not_ready by done. apply drumsOnly_refl.
Qed.

Lemma playDrumSoundAny_drumsOnly dp instrument e :
  drumsOnly e (exec (playDrumSoundAny dp instrument) e).
Proof.
  unfold playDrumSoundAny. destruct (drumOfString instrument).
  - apply playDrumSound_drumsOnly.
  - apply drumsOnly_refl.
Qed.

Lemma exec_bind {A B} (m : Audio A) (f : A → Audio B) e :
  exec (m ≫= f) e = exec (f (m e).1) (exec m e).
Proof. unfold exec, mbind, Audio_bind. by destruct (m e). Qed.

Lemma forEachEntry_drumsOnly dp step entries e :
  drumsOnly e
    (exec (forEachEntry entries (λ instrument steps,
             if stepActive steps step then playDrumSoundAny dp instrument else skip)) e).
Proof.
  revert e. induction entries as [| [instrument steps] rest IH]; intros e.
  - apply drumsOnly_refl.
  - cbn [forEachEntry]. rewrite exec_bind. eapply drumsOnly_trans; [| apply IH].
    destruct (stepActive steps step).
    + apply playDrumSoundAny_drumsOnly.
    + apply drumsOnly_refl.
Qed.

(** The melodic part of a tick, then the drums. *)
Lemma tickVoices_spec a :
  let e := engine a in
  let e' := exec (tickVoices a) e in
  ready e' = ready e ∧ currentTime e' = currentTime e
  ∧ (wellWired (edges e) → wellWired (edges e'))
  ∧ ∃ delta, calls e' = calls e ++ delta
             ∧ Forall (λ c, voiceCall c = true) delta
             ∧ melodicFrequencies delta =
                 if ready e && stepActive (synthSequencer a) (currentStep a)
                 then [300 + Qnat (currentStep a) * 20] else [].
Proof.
  intros e e'. subst e'. unfold tickVoices. rewrite exec_bind.
  set (e1 := exec (if stepActive _ _ then _ else _) e).
  destruct (forEachEntry_drumsOnly (drumParams a) (currentStep a) (drumSequencer a) e1)
    as [Hr Ht Hw (d & Hc & Hv & Hm)].
  assert (H1 : ready e1 = ready e ∧ currentTime e1 = currentTime e
               ∧ (wellWired (edges e) → wellWired (edges e1))
               ∧ ∃ d1, calls e1 = calls e ++ d1 ∧ Forall (λ c, voiceCall c = true) d1
                       ∧ melodicFrequencies d1 =
                           if ready e && stepActive (synthSequencer a) (currentStep a)
                           then [300 + Qnat (currentStep a) * 20] else []).
  { subst e1. destruct (stepActive (synthSequencer a) (currentStep a)).
    - destruct (playSynthNote_frame (synthParams a) (effects a)
                  (300 + Qnat (currentStep a) * 20) e) as [? ?].
      split_and!; [done | done | apply playSynthNote_wellWired |].
      destruct (ready e) eqn:Hre.
      + eexists. split_and!; [by apply playSynthNote_calls | apply voiceCall_synthCalls | done].
      + exists []. unfold playSynthNote. rewrite whenReady_not_ready by done.
        by rewrite app_nil_r.
    - split_and!; try done. exists []. rewrite andb_false_r. by rewrite app_nil_r. }
  destruct H1 as (Hr1 & Ht1 & Hw1 & d1 & Hc1 & Hv1 & Hm1).
  split_and!; [congruence | congruence | auto |].
  exists (d1 ++ d). split_and!.
  - by rewrite Hc, Hc1, app_assoc.
  - by apply Forall_app.
  - by rewrite melodicFrequencies_app, Hm, Hm1, app_nil_r.
Qed.

(** ** Patterns *)

Implicit Types (arr steps : list bool) (obj : DrumSequencer) (i j : nat).

Lemma arrayAssign_in_range arr i v :
  (i < length arr)%nat → arrayAssign arr i v = <[i := v]> arr.
Proof. intros H. unfold arrayAssign. by rewrite decide_True. Qed.

Lemma arrayAssign_length arr i v :
  (i < length arr)%nat → length (arrayAssign arr i v) = length arr.
Proof. intros H. rewrite arrayAssign_in_range by done. apply length_insert. Qed.

Lemma stepActive_lookup arr i :
  (i < length arr)%nat → arr !! i = Some (stepActive arr i).
Proof.
  intros H. unfold stepActive.
  destruct (lookup_lt_is_Some_2 arr i H) as [b ->]. done.
Qed.

Lemma toggled_length arr i : (i < length arr)%nat → length (toggled arr i) = length arr.
Proof. apply arrayAssign_length. Qed.

Lemma toggled_lookup arr i :
  (i < length arr)%nat → toggled arr i !! i = negb <$> arr !! i.
Proof.
  intros H. unfold toggled. rewrite arrayAssign_in_range by done.
  rewrite list_lookup_insert_eq by done. by rewrite (stepActive_lookup arr i H).
Qed.

Lemma toggled_lookup_ne arr i j :
  (i < length arr)%nat → j ≠ i → toggled arr i !! j = arr !! j.
Proof.
  intros H Hne. unfold toggled. rewrite arrayAssign_in_range by done.
  by apply list_lookup_insert_ne.
Qed.

Lemma toggled_involutive arr i : (i < length arr)%nat → toggled (toggled arr i) i = arr.
Proof.
  intros H. apply list_eq. intros j.
  assert (H' : (i < length (toggled arr i))%nat) by by rewrite toggled_length.
  destruct (decide (j = i)) as [-> | Hne].
  - rewrite toggled_lookup, toggled_lookup by done.
    destruct (arr !! i) as [[] |]; done.
  - by rewrite !toggled_lookup_ne.
Qed.

Lemma getLane_setLane obj key v :
  getLane (setLane obj key v) key = Some v.
Proof.
  induction obj as [| [k s] rest IH]; cbn.
  - by rewrite decide_True.
  - destruct (decide (k = key)) as [-> | Hne]; cbn.
    + by rewrite decide_True.
    + by rewrite decide_False.
Qed.

Lemma getLane_setLane_ne obj key other v :
  other ≠ key → getLane (setLane obj key v) other = getLane obj other.
Proof.
  intros Hne. induction obj as [| [k s] rest IH]; cbn.
  - by rewrite decide_False.
  - destruct (decide (k = key)) as [-> | Hk]; cbn.
    + by rewrite !decide_False.
    + destruct (decide (k = other)); done.
Qed.

Lemma setLane_setLane obj key v v0 :
  getLane obj key = Some v0 → setLane (setLane obj key v) key v0 = obj.
Proof.
  induction obj as [| [k s] rest IH]; cbn; [done |].
  destruct (decide (k = key)) as [-> | Hne]; cbn.
  - intros [= ->]. by rewrite decide_True.
  - intros H. rewrite decide_False by done. by rewrite IH.
Qed.

Lemma setLane_keys obj key v v0 :
  getLane obj key = Some v0 → (setLane obj key v).*1 = obj.*1.
Proof.
  induction obj as [| [k s] rest IH]; cbn; [done |].
  destruct (decide (k = key)) as [-> | Hne]; cbn; [done |].
  intros H. by rewrite IH.
Qed.

Lemma setLane_lengths obj key v n :
  Forall (λ kv, length kv.2 = n) obj → length v = n →
  Forall (λ kv, length kv.2 = n) (setLane obj key v).
Proof.
  intros Hall Hv. induction Hall as [| [k s] rest Hk Hrest IH]; cbn.
  - by constructor.
  - destruct (decide (k = key)); constructor; done.
Qed.

Lemma getLane_length obj key steps n :
  Forall (λ kv, length kv.2 = n) obj → getLane obj key = Some steps → length steps = n.
Proof.
  induction 1 as [| [k s] rest Hk Hrest IH]; cbn; [done |].
  destruct (decide (k = key)); [by intros [= <-] | done].
Qed.

Lemma toggleDrumLane_spec obj instrument steps i :
  getLane obj instrument = Some steps →
  toggleDrumLane instrument i obj = Some (setLane obj instrument (toggled steps i)).
Proof. intros H. unfold toggleDrumLane. by rewrite H. Qed.

(** ** Invariants of the runs *)

Arguments Nat.modulo : simpl never.
Arguments exec : simpl never.

Lemma appInv_initial : appInv initialApp.
Proof.
  split; cbn; [lia | intros c Hc; set_solver | done | by eexists | done | repeat constructor].
Qed.

Lemma mountEffect_edges e :
  edges (exec mountEffect e) =
    {[ (DelayNode, DelayFeedbackGain); (DelayFeedbackGain, DelayNode);
       (DelayNode, ReverbConvolver); (ReverbConvolver, CompressionNode);
       (CompressionNode, Destination); (MasterGain, CompressionNode) ]} ∪ edges e.
Proof. destruct e as [r t n g cs]. run_audio. set_solver. Qed.

Lemma mountEffect_ready e : ready (exec mountEffect e) = true.
Proof. by destruct e. Qed.

Lemma mountEffect_calls e : Create DuckGain ∈ calls (exec mountEffect e).
Proof. destruct e as [r t n g cs]. run_audio. set_solver. Qed.

Lemma mountEffect_wellWired e :
  wellWired (edges e) → wellWired (edges (exec mountEffect e)).
Proof.
  intros Hw c. rewrite mountEffect_edges. set_unfold.
  intros [H | H]; [| by apply Hw]. repeat destruct H as [H | H]; by subst.
Qed.

(** What the interval callback returns, spelled out. *)
Lemma tick_unfold a a' :
  tick a = Some a' →
  ∃ duck, duckCondition a = Some duck ∧
    let e1 := exec (tickVoices a) (engine a) in
    a' = setEngine a
           (if duck && ready e1
            then exec (atNow (λ t, Automate DuckGain P_gain (setTargetAtTime 0.3 t 0.05))) e1
            else e1)
           (if duck && ready e1
            then timeouts a ++ [stepTime (tempo (drumParams a)) * 0.75]
            else timeouts a)
           ((currentStep a + 1) mod 16).
Proof.
  unfold tick. destruct (duckCondition a) as [duck |]; [| done]. cbn.
  intros H. exists duck. split; [done |].
  destruct (duck && ready (exec (tickVoices a) (engine a))); by injection H as <-.
Qed.

Lemma tick_total a :
  is_Some (getLane (drumSequencer a) "kick") → is_Some (tick a).
Proof.
  intros [steps Hk]. unfold tick, duckCondition. rewrite Hk.
  destruct (compressionEnabled (effects a) && duckKick (effects a)); cbn;
    [destruct (stepActive steps (currentStep a) && _) |]; done.
Qed.

Lemma atNow_spec f e :
  let e' := exec (atNow f) e in
  ready e' = ready e ∧ currentTime e' = currentTime e ∧ edges e' = edges e
  ∧ calls e' = calls e ++ [f (currentTime e)].
Proof. by destruct e. Qed.

Lemma tick_appInv a a' : appInv a → tick a = Some a' → appInv a'.
Proof.
  intros [Hs Hw Hd Hk Hl Hdl] (duck & _ & ->)%tick_unfold.
  destruct (tickVoices_spec a) as (Hr & Ht & Hw' & delta & Hc & _).
  set (e1 := exec (tickVoices a) (engine a)) in *.
  split; cbn; try done.
  - apply Nat.mod_upper_bound. lia.
  - destruct (duck && ready e1); [| auto].
    destruct (atNow_spec (λ t, Automate DuckGain P_gain (setTargetAtTime 0.3 t 0.05)) e1)
      as (_ & _ & -> & _). auto.
  - destruct (duck && ready e1).
    + destruct (atNow_spec (λ t, Automate DuckGain P_gain (setTargetAtTime 0.3 t 0.05)) e1)
        as (-> & _ & _ & ->). rewrite Hr, Hc. intros H.
      rewrite !elem_of_app. left. left. auto.
    + rewrite Hr, Hc. intros H. rewrite elem_of_app. left. auto.
Qed.

Lemma duckRestore_spec e :
  let e' := exec duckRestore e in
  ready e' = ready e ∧ currentTime e' = currentTime e ∧ edges e' = edges e
  ∧ calls e' = calls e ++
      (if ready e then [Automate DuckGain P_gain (setTargetAtTime 1 (currentTime e) 0.1)]
       else []).
Proof. destruct e as [[] t n g cs]; run_audio; by rewrite ?app_nil_r. Qed.

Lemma updateDelayParams_spec sp e :
  let e' := exec (updateDelayParams sp) e in
  ready e' = ready e ∧ currentTime e' = currentTime e ∧ edges e' = edges e
  ∧ ∃ delta, calls e' = calls e ++ delta.
Proof.
  destruct e as [[] t n g cs]; run_audio; split_and!; try done.
  - eexists. by rewrite <- app_assoc.
  - exists []. by rewrite app_nil_r.
Qed.

Ltac split_inv :=
  split; cbn [setEngine fireTimeout togglePlay toggleSynthSequencerStep setEffects setParams
              engine currentStep synthSequencer drumSequencer timeouts];
  try assumption.

Lemma step_appInv a a' : appInv a → step a a' → appInv a'.
Proof.
  intros Ha Hstep. destruct Hstep as
    [a Hnr | a a' Hp Ht | a | a dt Hdt | a | a index Hi
    | a a' instrument steps index Hlane Hi Ht | a fx | a sp dp].
  - destruct Ha. split_inv.
    + by apply mountEffect_wellWired.
    + intros _. apply mountEffect_calls.
  - by eapply tick_appInv.
  - unfold fireTimeout. destruct (timeouts a); [done |].
    destruct Ha. destruct (duckRestore_spec (engine a)) as (Hr & _ & He & Hc).
    split_inv.
    + by rewrite He.
    + rewrite Hr, Hc. intros H. rewrite elem_of_app. left. auto.
  - destruct Ha. by split_inv.
  - destruct Ha. by split_inv.
  - destruct Ha. split_inv.
    rewrite arrayAssign_length; done.
  - unfold toggleDrumSequencerStep in Ht.
    rewrite (toggleDrumLane_spec _ _ _ _ Hlane) in Ht. cbn in Ht. injection Ht as <-.
    destruct Ha. split_inv.
    + destruct (decide (instrument = "kick")) as [-> | Hne].
      * rewrite getLane_setLane. by eexists.
      * by rewrite getLane_setLane_ne.
    + apply setLane_lengths; [done |]. rewrite toggled_length by done.
      by eapply getLane_length.
  - destruct Ha. by split_inv.
  - destruct Ha. destruct (updateDelayParams_spec sp (engine a)) as (Hr & _ & He & d & Hc).
    split_inv.
    + by rewrite He.
    + rewrite Hr, Hc. intros H. rewrite elem_of_app. left. auto.
Qed.

Lemma reachable_appInv a : reachable a → appInv a.
Proof.
  revert a. apply (rtc_ind_r (λ a, appInv a)).
  - apply appInv_initial.
  - intros y z _ Hs IH. by eapply step_appInv.
Qed.

(** ** The effects routing graph *)

Lemma mountedEngine_wellWired : wellWired (edges mountedEngine).
Proof. apply mountEffect_wellWired. intros c Hc. set_solver. Qed.

Lemma wellWired_compressor g b : wellWired g → (CompressionNode, b) ∈ g → b = Destination.
Proof. intros Hw Hb. apply Hw in Hb. by destruct b. Qed.

Lemma wellWired_destination g b : wellWired g → (Destination, b) ∉ g.
Proof. intros Hw Hb. apply Hw in Hb. by destruct b. Qed.

(** C1. For every combination of the four flags, after a voice node has
    been routed, the connections leaving the source, every enabled stage and
    the hardware output are exactly those of the chain
    source -> [delay] -> [reverb] -> [compressor] -> output that
    [computeTopology] gives for the flags: the signal path is that chain,
    whatever the graph was before. *)
Theorem connectToEffectsChain_topology (fx : EffectsGraphState) (k : NodeKind) (id : nat)
    (e : Engine) (a b : AudioNode) :
  ready e = true →
  wellWired (edges e) →
  a ∈ Voice k id :: computeTopology fx ++ [Destination] →
  (a, b) ∈ edges (exec (connectToEffectsChain fx (Voice k id)) e)
  ↔ (a, b) ∈ chain (Voice k id) (computeTopology fx).
Proof.
  intros Hr Hw Ha. rewrite connectToEffectsChain_edges by done.
  pose proof (wellWired_compressor _ b Hw) as Hc.
  pose proof (wellWired_destination _ b Hw) as Hd.
  clear Hw. destruct fx as [[] [] [] ?]; cbn in *; set_unfold; naive_solver.
Qed.

Lemma connectToEffectsChain_topology_witness :
  (DelayNode, ReverbConvolver)
    ∈ edges (exec (connectToEffectsChain allEffects (Voice BiquadFilter 2)) mountedEngine)
  ↔ (DelayNode, ReverbConvolver) ∈ chain (Voice BiquadFilter 2) (computeTopology allEffects).
Proof.
  apply (connectToEffectsChain_topology allEffects BiquadFilter 2 mountedEngine).
  - reflexivity.
  - exact mountedEngine_wellWired.
  - cbn. set_solver.
Defined.

(** *** Re-routing after a flag has been toggled *)

Lemma toggleEffect_involutive flag fx : toggleEffect flag (toggleEffect flag fx) = fx.
Proof. destruct flag, fx as [[] [] [] []]; reflexivity. Qed.

Lemma chain_stageEdges n fx :
  chain n (computeTopology fx) = (n, hd Destination (computeTopology fx)) :: stageEdges fx.
Proof. unfold stageEdges. by destruct (computeTopology fx). Qed.

Lemma stageEdges_source fx c : c ∈ stageEdges fx → isVoice c.1 = false.
Proof.
  destruct fx as [[] [] [] ?]; cbn; set_unfold; intros H;
    repeat destruct H as [H | H]; by subst.
Qed.

Lemma effectsEdges_playSynthNote sp fx f e :
  ready e = true →
  effectsEdges (edges (exec (playSynthNote sp fx f) e)) = restage fx (effectsEdges (edges e)).
Proof.
  intros Hr. rewrite playSynthNote_edges by done. cbv zeta.
  rewrite chain_stageEdges. unfold effectsEdges, restage.
  apply set_eq. intros [x y]. pose proof (stageEdges_source fx (x, y)) as Hs.
  set_unfold. cbn in *. split.
  - intros [Hv [[Heq | H] | [(Hn & HP) H]]].
    + by simplify_eq.
    + by left.
    + destruct H as [Heq | [Heq | H]]; simplify_eq; try done. by right.
  - intros [H | (HP & Hv & H)].
    + split; [auto |]. left. by right.
    + split; [done |]. right. split; [| auto]. split; [| done]. by intros ->.
Qed.

Lemma restage_stable fx fx' g :
  restage fx (restage fx' (restage fx (restage fx' g))) = restage fx (restage fx' g).
Proof. unfold restage. set_solver. Qed.

Lemma effectsEdges_retrigger flag fx sp f1 f2 e :
  ready e = true →
  effectsEdges (edges (exec (retrigger flag fx sp f1 f2) e))
  = restage fx (restage (toggleEffect flag fx) (effectsEdges (edges e))).
Proof.
  intros Hr. unfold retrigger. rewrite exec_bind, toggleEffect_involutive.
  rewrite effectsEdges_playSynthNote.
  - by rewrite effectsEdges_playSynthNote.
  - by destruct (playSynthNote_frame sp (toggleEffect flag fx) f1 e) as [-> _].
Qed.

Lemma retrigger_ready flag fx sp f1 f2 e :
  ready (exec (retrigger flag fx sp f1 f2) e) = ready e.
Proof.
  unfold retrigger. rewrite exec_bind.
  destruct (playSynthNote_frame sp (toggleEffect flag (toggleEffect flag fx)) f2
              (exec (playSynthNote sp (toggleEffect flag fx) f1) e)) as [-> _].
  by destruct (playSynthNote_frame sp (toggleEffect flag fx) f1 e) as [-> _].
Qed.

Ltac by_compute := apply (bool_decide_unpack _); vm_compute; exact I.

Lemma mounted_has_feedback : (DelayNode, DelayFeedbackGain) ∈ edges mountedEngine.
Proof. by_compute. Qed.

Lemma roundTrip_lost_feedback : (DelayNode, DelayFeedbackGain) ∉ edges afterDelayRoundTrip.
Proof. by_compute. Qed.

Lemma mounted_delay_output : (DelayNode, Destination) ∉ edges mountedEngine.
Proof. by_compute. Qed.

Lemma roundTrip_delay_output : (DelayNode, Destination) ∈ edges afterDelayRoundTrip.
Proof. by_compute. Qed.

Lemma mounted_effects_size : size (effectsEdges (edges mountedEngine)) = 6%nat.
Proof. vm_compute. reflexivity. Qed.

Lemma roundTrip_effects_size : size (effectsEdges (edges afterDelayRoundTrip)) = 5%nat.
Proof. vm_compute. reflexivity. Qed.

(** C5, as stated, fails: from the freshly mounted graph with every flag
    off, switching the delay on, playing a note, switching it off and
    playing another note loses the delay's feedback and reverb connections
    and leaves a connection from the delay to the output behind; the
    long-lived nodes go from six connections to five. *)
Lemma retrigger_not_restoring :
  ((DelayNode, DelayFeedbackGain) ∈ edges mountedEngine)
  ∧ ((DelayNode, DelayFeedbackGain) ∉ edges afterDelayRoundTrip)
  ∧ ((DelayNode, Destination) ∉ edges mountedEngine)
  ∧ ((DelayNode, Destination) ∈ edges afterDelayRoundTrip)
  ∧ (size (effectsEdges (edges mountedEngine)) = 6%nat)
  ∧ (size (effectsEdges (edges afterDelayRoundTrip)) = 5%nat)
  ∧ (effectsEdges (edges afterDelayRoundTrip) ≠ effectsEdges (edges mountedEngine)).
Proof.
  split; [exact mounted_has_feedback |]. split; [exact roundTrip_lost_feedback |].
  split; [exact mounted_delay_output |]. split; [exact roundTrip_delay_output |].
  split; [exact mounted_effects_size |]. split; [exact roundTrip_effects_size |].
  intros Heq. pose proof mounted_effects_size as H6.
  rewrite <- Heq, roundTrip_effects_size in H6. discriminate H6.
Qed.

(** C5, amended.  Toggling a flag twice gives back the flags, hence the
    enabled-stage ordering; and once a note has been played after each of
    the two toggles, doing the same again leaves the connections of the
    long-lived nodes, and so their number, as they are. *)
Theorem retrigger_stable (flag : EffectFlag) (fx : EffectsGraphState) (sp : SynthParams)
    (f1 f2 f3 f4 : Q) (e : Engine) :
  ready e = true →
  computeTopology (toggleEffect flag (toggleEffect flag fx)) = computeTopology fx
  ∧ let e2 := exec (retrigger flag fx sp f1 f2) e in
    let e4 := exec (retrigger flag fx sp f3 f4) e2 in
    effectsEdges (edges e4) = effectsEdges (edges e2)
    ∧ size (effectsEdges (edges e4)) = size (effectsEdges (edges e2)).
Proof.
  intros Hr. split; [by rewrite toggleEffect_involutive |]. cbv zeta.
  assert (H : effectsEdges (edges (exec (retrigger flag fx sp f3 f4)
                                     (exec (retrigger flag fx sp f1 f2) e)))
              = effectsEdges (edges (exec (retrigger flag fx sp f1 f2) e))).
  { rewrite effectsEdges_retrigger by by rewrite retrigger_ready.
    rewrite effectsEdges_retrigger by done. apply restage_stable. }
  by rewrite H.
Qed.

Lemma retrigger_stable_witness :
  computeTopology (toggleEffect F_delay (toggleEffect F_delay noEffects))
  = computeTopology noEffects
  ∧ let e2 := exec (retrigger F_delay noEffects defaultSynthParams 300 320) mountedEngine in
    let e4 := exec (retrigger F_delay noEffects defaultSynthParams 340 360) e2 in
    effectsEdges (edges e4) = effectsEdges (edges e2)
    ∧ size (effectsEdges (edges e4)) = size (effectsEdges (edges e2)).
Proof.
  apply (retrigger_stable F_delay noEffects defaultSynthParams 300 320 340 360 mountedEngine).
  reflexivity.
Defined.

(** ** The melodic envelope and filter sweep *)

Ltac solve_timeline :=
  unfold timeline; cbn -[Qplus Qdiv Qmult Qminus];
  repeat (first [ rewrite decide_True by done
                | rewrite decide_False by (intros [? ?]; discriminate) ];
          cbn -[Qplus Qdiv Qmult Qminus]);
  reflexivity.

Lemma timeline_gain sp f t id :
  timeline (synthCalls sp f t id) (Voice Gain (S id)) P_gain =
    [ setValueAtTime 0 t;
      linearRampToValueAtTime 1 (t + attack sp / 100);
      linearRampToValueAtTime (sustain sp / 100) (t + attack sp / 100 + decay sp / 100);
      setTargetAtTime 0 (t + attack sp / 100 + decay sp / 100) (release sp / 100 / 10) ].
Proof. unfold synthCalls. solve_timeline. Qed.

Lemma timeline_filter sp f t id :
  timeline (synthCalls sp f t id) (Voice BiquadFilter (S (S id))) P_frequency =
    [ setValueAtTime 20000 t; linearRampToValueAtTime (cutoff sp * 200) (t + 0.1) ].
Proof. unfold synthCalls. solve_timeline. Qed.

Lemma insertEvent_last ev evs :
  Forall (λ x, eventTime x <= eventTime ev) evs → insertEvent ev evs = evs ++ [ev].
Proof.
  induction 1 as [| x rest Hx Hrest IH]; cbn; [done |].
  destruct (Qlt_le_dec (eventTime ev) (eventTime x)) as [Hlt | Hle].
  - exfalso. apply (Qlt_not_le _ _ Hlt Hx).
  - by rewrite IH.
Qed.

Lemma scheduled_gain t A D s tau :
  0 <= A → 0 <= D →
  scheduled [ setValueAtTime 0 t; linearRampToValueAtTime 1 (t + A);
              linearRampToValueAtTime s (t + A + D); setTargetAtTime 0 (t + A + D) tau ]
  = [ setValueAtTime 0 t; linearRampToValueAtTime 1 (t + A);
      linearRampToValueAtTime s (t + A + D); setTargetAtTime 0 (t + A + D) tau ].
Proof.
  intros HA HD. unfold scheduled. cbn [foldl].
  rewrite (insertEvent_last _ []) by constructor. cbn [app].
  rewrite (insertEvent_last _ [_]) by (repeat constructor; cbn; lra). cbn [app].
  rewrite (insertEvent_last _ [_; _]) by (repeat constructor; cbn; lra). cbn [app].
  rewrite (insertEvent_last _ [_; _; _]) by (repeat constructor; cbn; lra). done.
Qed.

Lemma scheduled_sweep t target :
  scheduled [ setValueAtTime 20000 t; linearRampToValueAtTime target (t + 0.1) ]
  = [ setValueAtTime 20000 t; linearRampToValueAtTime target (t + 0.1) ].
Proof.
  unfold scheduled. cbn [foldl].
  rewrite (insertEvent_last _ []) by constructor. cbn [app].
  rewrite (insertEvent_last _ [_]) by (repeat constructor; cbn; lra). done.
Qed.

(** Evaluates a timeline at a time whose position among the event times
    follows from the hypotheses by linear arithmetic. *)
Ltac eval_timeline :=
  cbn [valueFrom];
  repeat match goal with
         | |- context [Qlt_le_dec ?x ?y] =>
             destruct (Qlt_le_dec x y); [try (exfalso; lra) | try (exfalso; lra)]
         end.

Lemma percent_nonneg x : 0 <= x → 0 <= x / 100.
Proof. intros H. apply Qle_shift_div_l; lra. Qed.

Lemma timeConstant_zero x : x / 100 / 10 == 0 ↔ x == 0.
Proof.
  split; intros H.
  - setoid_replace x with (x / 100 / 10 * 1000) using relation Qeq by field.
    rewrite H. reflexivity.
  - rewrite H. reflexivity.
Qed.

Lemma decay_at_start (expDecay : Q → Q) x tau :
  Proper (Qeq ==> Qeq) expDecay → expDecay 0 == 1 → expDecay ((x - x) / tau) == 1.
Proof.
  intros Hp H0. rewrite <- H0. apply Hp. unfold Qdiv.
  setoid_replace (x - x) with 0 using relation Qeq by ring. ring.
Qed.

(** C2. The gain of a melodic note is scheduled as: 0 at the trigger time,
    a linear ramp to 1 ending [attack/100] seconds later, a linear ramp to
    [sustain/100] ending a further [decay/100] seconds later, and from that
    instant an exponential approach to 0 with time constant [release/1000]
    seconds.  With non-negative attack and decay the value at the end of
    the decay ramp is the sustain level when the release is not zero; with
    release 0, the lowest setting of the control, the time constant is zero
    and the gain is 0 from that instant.  For attack 20, decay 40, sustain
    70 and release 30 the times are 0.2 s and 0.4 s, the level 0.7, the
    time constant 0.03 s, and the gain 0.6 s after the trigger is 0.7. *)
Theorem playSynthNote_envelope (expDecay : Q → Q) (power : Q → Q → Q)
    (sp : SynthParams) (fx : EffectsGraphState) (f : Q) (e : Engine) :
  Proper (Qeq ==> Qeq) expDecay → expDecay 0 == 1 →
  ready e = true →
  let t0 := currentTime e in
  let gainNode := Voice Gain (S (nextId e)) in
  let cs := newCalls e (exec (playSynthNote sp fx f) e) in
  timeline cs gainNode P_gain =
    [ setValueAtTime 0 t0;
      linearRampToValueAtTime 1 (t0 + attack sp / 100);
      linearRampToValueAtTime (sustain sp / 100) (t0 + attack sp / 100 + decay sp / 100);
      setTargetAtTime 0 (t0 + attack sp / 100 + decay sp / 100) (release sp / 100 / 10) ]
  ∧ release sp / 100 / 10 == release sp / 1000
  ∧ (0 <= attack sp → 0 <= decay sp → ¬ release sp == 0 →
     paramValue expDecay power cs gainNode P_gain t0 0
       (t0 + attack sp / 100 + decay sp / 100) == sustain sp / 100)
  ∧ (0 <= attack sp → 0 <= decay sp → release sp == 0 →
     paramValue expDecay power cs gainNode P_gain t0 0
       (t0 + attack sp / 100 + decay sp / 100) == 0)
  ∧ (attack sp == 20 → decay sp == 40 → sustain sp == 70 → release sp == 30 →
     attack sp / 100 == 0.2 ∧ decay sp / 100 == 0.4 ∧ sustain sp / 100 == 0.7
     ∧ release sp / 100 / 10 == 0.03
     ∧ paramValue expDecay power cs gainNode P_gain t0 0 (t0 + 0.6) == 0.7).
Proof.
  intros Hp H0 Hr t0 gainNode cs. subst cs gainNode t0.
  rewrite (newCalls_app _ _ _ (playSynthNote_calls sp fx f e Hr)).
  unfold paramValue. rewrite timeline_gain.
  split; [done |]. split; [field |]. split; [| split].
  - intros Ha Hd Hrel. apply percent_nonneg in Ha, Hd. rewrite scheduled_gain by done.
    eval_timeline.
    destruct (Qeq_dec (release sp / 100 / 10) 0) as [Hz | _].
    { exfalso. by apply Hrel, timeConstant_zero. }
    rewrite decay_at_start by done. ring.
  - intros Ha Hd Hrel. apply percent_nonneg in Ha, Hd. rewrite scheduled_gain by done.
    eval_timeline.
    destruct (Qeq_dec (release sp / 100 / 10) 0) as [_ | Hz].
    { reflexivity. }
    exfalso. by apply Hz, timeConstant_zero.
  - intros Ea Ed Es Erel.
    assert (EA : attack sp / 100 == 0.2) by (rewrite Ea; reflexivity).
    assert (ED : decay sp / 100 == 0.4) by (rewrite Ed; reflexivity).
    assert (ES : sustain sp / 100 == 0.7) by (rewrite Es; reflexivity).
    assert (ER : release sp / 100 / 10 == 0.03) by (rewrite Erel; reflexivity).
    rewrite scheduled_gain by lra.
    split_and!; try done.
    eval_timeline.
    destruct (Qeq_dec (release sp / 100 / 10) 0) as [Hz | _].
    { exfalso. rewrite ER in Hz. discriminate Hz. }
    assert (Hx : (currentTime e + 0.6
                  - (currentTime e + attack sp / 100 + decay sp / 100)) / (release sp / 100 / 10)
                 == (0 - 0) / (release sp / 100 / 10)).
    { apply Qdiv_comp; [lra | reflexivity]. }
    rewrite (Hp _ _ Hx), decay_at_start by done. lra.
Qed.

(** C8. The filter cutoff of a melodic note is scheduled as 20000 Hz at
    the trigger time and a linear ramp to [cutoff * 200] Hz ending 0.1 s
    later, whatever the envelope settings; with cutoff 50 the value 0.1 s
    after the trigger is 10000 Hz. *)
Theorem playSynthNote_filter_sweep (expDecay : Q → Q) (power : Q → Q → Q)
    (sp : SynthParams) (fx : EffectsGraphState) (f : Q) (e : Engine) :
  ready e = true →
  let t0 := currentTime e in
  let source := Voice BiquadFilter (S (S (nextId e))) in
  let cs := newCalls e (exec (playSynthNote sp fx f) e) in
  timeline cs source P_frequency =
    [ setValueAtTime 20000 t0; linearRampToValueAtTime (cutoff sp * 200) (t0 + 0.1) ]
  ∧ paramValue expDecay power cs source P_frequency t0 20000 t0 == 20000
  ∧ paramValue expDecay power cs source P_frequency t0 20000 (t0 + 0.1) == cutoff sp * 200
  ∧ (cutoff sp == 50 →
     paramValue expDecay power cs source P_frequency t0 20000 (t0 + 0.1) == 10000)
  ∧ (∀ sp', cutoff sp' = cutoff sp →
     timeline (newCalls e (exec (playSynthNote sp' fx f) e)) source P_frequency
     = timeline cs source P_frequency).
Proof.
  intros Hr t0 source cs. subst cs source t0.
  rewrite (newCalls_app _ _ _ (playSynthNote_calls sp fx f e Hr)).
  unfold paramValue. rewrite timeline_filter, scheduled_sweep.
  split; [done |]. split; [| split; [| split]].
  - eval_timeline. field. lra.
  - eval_timeline. reflexivity.
  - intros Hc. eval_timeline. rewrite Hc. reflexivity.
  - intros sp' Hc.
    rewrite (newCalls_app _ _ _ (playSynthNote_calls sp' fx f e Hr)).
    by rewrite timeline_filter, Hc.
Qed.

(** ** The drum voices *)

(** C7. A kick is a sine oscillator whose frequency is set to
    [150 + kickTone * 5] Hz and swept exponentially to 20 Hz over
    [kickDecay / 1000] seconds, through a gain set to 1 and swept
    exponentially to 0.001 over the same time; the oscillator is stopped
    50 ms after the end of the decay.  With kickTone 50 the start
    frequency is 400 Hz. *)
Theorem playDrumSound_kick (dp : DrumParams) (e : Engine) :
  ready e = true →
  let t := currentTime e in
  let osc := Voice Oscillator (nextId e) in
  let gainNode := Voice Gain (S (nextId e)) in
  let cs := newCalls e (exec (playDrumSound dp kick) e) in
  cs = [ Create osc; Create gainNode;
         Automate osc P_frequency (setValueAtTime (150 + kickTone dp * 5) t);
         Automate gainNode P_gain (setValueAtTime 1 t);
         SetOscType osc sine;
         Start osc None;
         Automate osc P_frequency (exponentialRampToValueAtTime 20 (t + kickDecay dp / 1000));
         Automate gainNode P_gain
           (exponentialRampToValueAtTime 0.001 (t + kickDecay dp / 1000));
         Stop osc (t + kickDecay dp / 1000 + 0.05) ]
  ∧ timeline cs osc P_frequency =
      [ setValueAtTime (150 + kickTone dp * 5) t;
        exponentialRampToValueAtTime 20 (t + kickDecay dp / 1000) ]
  ∧ timeline cs gainNode P_gain =
      [ setValueAtTime 1 t; exponentialRampToValueAtTime 0.001 (t + kickDecay dp / 1000) ]
  ∧ t + kickDecay dp / 1000 + 0.05 - (t + kickDecay dp / 1000) == 50 / 1000
  ∧ (kickTone dp == 50 → 150 + kickTone dp * 5 == 400).
Proof.
  intros Hr t osc gainNode cs. subst cs gainNode osc t.
  rewrite (newCalls_app _ _ _ (playDrumSound_calls dp kick e Hr)).
  split; [done |]. split; [cbn [drumCalls]; solve_timeline |].
  split; [cbn [drumCalls]; solve_timeline |].
  split; [| intros H; rewrite H; reflexivity].
  set (x := kickDecay dp / 1000). setoid_replace (50 / 1000) with 0.05 using relation Qeq; [lra | reflexivity].
Qed.

Lemma exponentialRampTimes_drumCalls dp type t id :
  exponentialRampTimes (drumCalls dp type t id) =
    match type with
    | kick | snare => [t + decayOf dp type / 1000; t + decayOf dp type / 1000]
    | hihat | tom | clap | perc => [t + decayOf dp type / 1000]
    end.
Proof. by destruct type. Qed.

(** C4, as stated, fails: a kick triggered with [kickDecay = 0] schedules
    its two exponential ramps to end at the current time, a duration of
    zero; nothing clamps the decay. *)
Lemma playDrumSound_zero_decay :
  exponentialRampTimes (newCalls mountedEngine (exec (playDrumSound zeroKickDecay kick) mountedEngine))
  = [currentTime mountedEngine + 0 / 1000; currentTime mountedEngine + 0 / 1000]
  ∧ ¬ Forall (λ endTime, currentTime mountedEngine < endTime)
        (exponentialRampTimes
           (newCalls mountedEngine (exec (playDrumSound zeroKickDecay kick) mountedEngine))).
Proof.
  rewrite (newCalls_app _ _ _ (playDrumSound_calls zeroKickDecay kick mountedEngine eq_refl)).
  rewrite exponentialRampTimes_drumCalls. split; [reflexivity |].
  intros H. apply Forall_cons_1 in H as [H _]. revert H. apply Qle_not_lt.
  vm_compute. discriminate.
Qed.

(** C4, amended.  When the current time and the time [decay / 1000]
    seconds after it are not negative, so that the browser accepts every
    scheduled time, every exponential ramp of a drum trigger ends exactly
    [decay / 1000] seconds after the current time, at a time that is not
    negative, [decay] being the instrument's decay parameter as it is,
    unclamped; the ramps end strictly after the current time exactly when
    that parameter is positive. *)
Theorem playDrumSound_ramp_times (dp : DrumParams) (type : DrumType) (e : Engine) :
  ready e = true →
  0 <= currentTime e →
  0 <= currentTime e + decayOf dp type / 1000 →
  let times := exponentialRampTimes (newCalls e (exec (playDrumSound dp type) e)) in
  times ≠ []
  ∧ Forall (λ endTime, 0 <= endTime) times
  ∧ Forall (λ endTime, endTime - currentTime e == decayOf dp type / 1000) times
  ∧ (Forall (λ endTime, currentTime e < endTime) times ↔ 0 < decayOf dp type).
Proof.
  intros Hr Hnow Hend times. subst times.
  rewrite (newCalls_app _ _ _ (playDrumSound_calls dp type e Hr)).
  rewrite exponentialRampTimes_drumCalls.
  revert Hnow Hend.
  set (d := decayOf dp type). set (t := currentTime e). intros Hnow Hend.
  assert (Hd : 0 < d ↔ t < t + d / 1000).
  { split; intros H.
    - assert (0 < d / 1000) by (apply Qlt_shift_div_l; lra). lra.
    - assert (H' : 0 < d / 1000) by lra.
      apply (Qmult_lt_compat_r _ _ 1000) in H'; [| lra].
      setoid_replace (d / 1000 * 1000) with d using relation Qeq in H' by field. lra. }
  destruct type; (split; [done |]); (split; [repeat constructor; exact Hend |]);
    (split; [repeat constructor; ring |]);
    rewrite Hd; split.
  all: try (intros H; by apply Forall_cons_1 in H as [H _]).
  all: intros H; repeat constructor; exact H.
Qed.

Lemma reaches_step g a b c : (a, b) ∈ g → reaches g b c → reaches g a c.
Proof. intros H1 H2. by eapply rtc_l. Qed.

Ltac hop b :=
  apply (reaches_step _ _ b);
  [cbn; set_solver |].

(** C9. A drum trigger removes no connection and adds none into or out of
    the nodes of the effects graph, nor out of the master bus: every
    connection it adds leaves one of its own voice nodes or the kick bus,
    and ends at a voice node, the kick bus or the master bus.  Each
    generator it creates is connected through to the master bus. *)
Theorem playDrumSound_bypasses_effects (dp : DrumParams) (type : DrumType) (e : Engine) :
  ready e = true →
  let e' := exec (playDrumSound dp type) e in
  edges e ⊆ edges e'
  ∧ (∀ a b, (a, b) ∈ edges e' → (a, b) ∉ edges e →
       (a ∉ MasterGain :: effectNodes) ∧ (b ∉ effectNodes)
       ∧ (isVoice a = true ∨ a = KickGain)
       ∧ (isVoice b = true ∨ b = KickGain ∨ b = MasterGain))
  ∧ (∀ a b, (a ∈ MasterGain :: effectNodes) ∨ (b ∈ effectNodes) →
       (a, b) ∈ edges e' ↔ (a, b) ∈ edges e)
  ∧ (∀ source, source ∈ drumSources type (nextId e) → reaches (edges e') source MasterGain).
Proof.
  intros Hr e'. subst e'. rewrite playDrumSound_edges by done.
  assert (Hnew : ∀ a b, (a, b) ∈ drumEdges type (nextId e) →
            (a ∉ MasterGain :: effectNodes) ∧ (b ∉ effectNodes)
            ∧ (isVoice a = true ∨ a = KickGain)
            ∧ (isVoice b = true ∨ b = KickGain ∨ b = MasterGain)).
  { intros a b. unfold effectNodes. destruct type; cbn; set_unfold; intros H;
      repeat destruct H as [H | H]; simplify_eq; cbn; naive_solver. }
  split; [set_solver |]. split; [| split].
  - intros a b [H | H]%elem_of_union Hn; [| done].
    apply Hnew. by apply elem_of_list_to_set in H.
  - intros a b Hab. split; [| set_solver].
    intros [H | H]%elem_of_union; [| done].
    apply elem_of_list_to_set, Hnew in H. naive_solver.
  - intros source Hs. clear Hnew. set (id := nextId e) in *.
    destruct type; cbn in Hs; set_unfold in Hs; repeat destruct Hs as [Hs | Hs]; try done; subst source.
    + hop (Voice Gain (S id)). hop KickGain. hop MasterGain. apply rtc_refl.
    + hop (Voice Gain (S (S id))). hop MasterGain. apply rtc_refl.
    + hop (Voice Gain (S (S (S (S id))))). hop MasterGain. apply rtc_refl.
    + hop (Voice BiquadFilter (S (S (S id)))). hop (Voice Gain (S (S id))).
      hop MasterGain. apply rtc_refl.
    + hop (Voice Gain (S id)). hop MasterGain. apply rtc_refl.
    + hop (Voice Gain (S (S id))). hop MasterGain. apply rtc_refl.
    + hop (Voice Gain (S id)). hop MasterGain. apply rtc_refl.
Qed.

(** ** The sequencer *)





(** C3. While the transport runs, the interval period is
    [(60 / tempo) * 1000 / 4] ms (125 ms at 120 BPM); a tick triggers the
    melodic voice, at [300 + currentStep * 20] Hz, exactly when the melodic
    pattern is active at [currentStep], and moves [currentStep] to
    [(currentStep + 1) mod 16]; the step is below 16 in every reachable
    state. *)
Theorem tick_sequencer (a : App) :
  reachable a → isPlaying a = true → ready (engine a) = true →
  sequencerInterval a = Some ((60 / tempo (drumParams a)) * 1000 / 4)
  ∧ (tempo (drumParams a) == 120 → (60 / tempo (drumParams a)) * 1000 / 4 == 125)
  ∧ (currentStep a < 16)%nat
  ∧ ∃ a', tick a = Some a'
          ∧ reachable a'
          ∧ currentStep a' = ((currentStep a + 1) mod 16)%nat
          ∧ (currentStep a' < 16)%nat
          ∧ melodicFrequencies (newCalls (engine a) (engine a')) =
              if stepActive (synthSequencer a) (currentStep a)
              then [300 + Qnat (currentStep a) * 20] else [].
Proof.
  intros Hreach Hp Hr. destruct (reachable_appInv a Hreach) as [Hs _ _ Hk _ _].
  split; [unfold sequencerInterval; by rewrite Hp |].
  split; [intros ->; reflexivity |]. split; [done |].
  destruct (tick_total a Hk) as [a' Ht]. exists a'. split; [done |].
  split; [eapply rtc_r; [exact Hreach | by apply step_tick] |].
  pose proof Ht as (duck & _ & ->)%tick_unfold. cbn [setEngine currentStep engine].
  split; [done |]. split; [apply Nat.mod_upper_bound; lia |].
  destruct (tickVoices_spec a) as (Hr1 & Ht1 & _ & delta & Hc & _ & Hm).
  set (e1 := exec (tickVoices a) (engine a)) in *.
  rewrite Hr in Hm. cbn [andb] in Hm. rewrite <- Hm.
  destruct (duck && ready e1).
  - destruct (atNow_spec (λ t, Automate DuckGain P_gain (setTargetAtTime 0.3 t 0.05)) e1)
      as (_ & _ & _ & Hc2).
    rewrite (newCalls_app _ _ (delta ++ [Automate DuckGain P_gain
                                          (setTargetAtTime 0.3 (currentTime e1) 0.05)])).
    + by rewrite melodicFrequencies_app, app_nil_r.
    + by rewrite Hc2, Hc, app_assoc.
  - by rewrite (newCalls_app _ _ _ Hc).
Qed.

(** C6. Toggling a step of a 16-step pattern, melodic or drum lane,
    at an index below 16 flips that step, leaves every other step and
    (for drums) every other lane as it was, keeps the length at 16, and
    done twice gives back the original state. *)
Theorem toggle_step_involutive :
  (∀ (a : App) (index : nat),
     length (synthSequencer a) = 16%nat → (index < 16)%nat →
     let a1 := toggleSynthSequencerStep index a in
     toggleSynthSequencerStep index a1 = a
     ∧ length (synthSequencer a1) = 16%nat
     ∧ synthSequencer a1 !! index = negb <$> synthSequencer a !! index
     ∧ (∀ j, j ≠ index → synthSequencer a1 !! j = synthSequencer a !! j)
     ∧ drumSequencer a1 = drumSequencer a)
  ∧ (∀ (a : App) (instrument : string) (steps : list bool) (index : nat),
       getLane (drumSequencer a) instrument = Some steps →
       length steps = 16%nat → (index < 16)%nat →
       ∃ a1 steps1,
         toggleDrumSequencerStep instrument index a = Some a1
         ∧ toggleDrumSequencerStep instrument index a1 = Some a
         ∧ getLane (drumSequencer a1) instrument = Some steps1
         ∧ length steps1 = 16%nat
         ∧ steps1 !! index = negb <$> steps !! index
         ∧ (∀ j, j ≠ index → steps1 !! j = steps !! j)
         ∧ (∀ other, other ≠ instrument →
              getLane (drumSequencer a1) other = getLane (drumSequencer a) other)
         ∧ synthSequencer a1 = synthSequencer a).
Proof.
  split.
  - intros a index Hlen Hi a1. subst a1.
    assert (Hi' : (index < length (synthSequencer a))%nat) by lia.
    split_and!.
    + destruct a as [sp dp cur playing fx synth drums ts eng].
      unfold toggleSynthSequencerStep. cbn in *. f_equal.
      by apply (toggled_involutive synth index).
    + cbn. by rewrite arrayAssign_length.
    + by apply (toggled_lookup (synthSequencer a) index).
    + intros j Hj. by apply (toggled_lookup_ne (synthSequencer a) index j).
    + done.
  - intros a instrument steps index Hlane Hlen Hi.
    assert (Hi' : (index < length steps)%nat) by lia.
    eexists _, (toggled steps index). split_and!.
    + unfold toggleDrumSequencerStep. rewrite (toggleDrumLane_spec _ _ _ _ Hlane). done.
    + unfold toggleDrumSequencerStep. cbn -[toggleDrumLane].
      rewrite (toggleDrumLane_spec _ _ (toggled steps index)) by apply getLane_setLane.
      cbn. rewrite toggled_involutive by done. rewrite setLane_setLane by done.
      by destruct a.
    + cbn. apply getLane_setLane.
    + by rewrite toggled_length.
    + by apply toggled_lookup.
    + intros j Hj. by apply toggled_lookup_ne.
    + intros other Hne. cbn. by apply getLane_setLane_ne.
    + done.
Qed.

(** ** Concrete runs *)

Lemma demoApp_reachable : reachable demoApp.
Proof.
  unfold reachable.
  eapply rtc_l; [apply step_mount; reflexivity |].
  eapply rtc_l; [apply (step_toggleSynth _ 0); cbn; lia |].
  eapply rtc_l; [eapply (step_toggleDrum _ _ "kick" _ 0); [reflexivity | cbn; lia | reflexivity] |].
  eapply rtc_l; [apply (step_setEffects _ allEffects) |].
  eapply rtc_l; [apply step_togglePlay |].
  apply rtc_refl.
Defined.

Lemma linearDecay_proper : Proper (Qeq ==> Qeq) linearDecay.
Proof. intros x y H. unfold linearDecay. apply Qplus_comp; [reflexivity | by apply Qopp_comp]. Defined.

Lemma playSynthNote_envelope_witness :
  paramValue linearDecay (λ _ _, 1)
    (newCalls mountedEngine (exec (playSynthNote defaultSynthParams noEffects 300) mountedEngine))
    (Voice Gain 1) P_gain 0 0 (0 + 0.6) == 0.7
  ∧ paramValue linearDecay (λ _ _, 1)
      (newCalls mountedEngine (exec (playSynthNote zeroRelease noEffects 300) mountedEngine))
      (Voice Gain 1) P_gain 0 0 (0 + 20 / 100 + 40 / 100) == 0.
Proof.
  split.
  - destruct (playSynthNote_envelope linearDecay (λ _ _, 1) defaultSynthParams noEffects 300
                mountedEngine) as (_ & _ & _ & _ & H).
    + exact linearDecay_proper.
    + reflexivity.
    + reflexivity.
    + apply H; reflexivity.
  - destruct (playSynthNote_envelope linearDecay (λ _ _, 1) zeroRelease noEffects 300
                mountedEngine) as (_ & _ & _ & H & _).
    + exact linearDecay_proper.
    + reflexivity.
    + reflexivity.
    + apply H; [discriminate | discriminate | reflexivity].
Defined.

Lemma playSynthNote_filter_sweep_witness :
  paramValue linearDecay (λ _ _, 1)
    (newCalls mountedEngine (exec (playSynthNote defaultSynthParams noEffects 300) mountedEngine))
    (Voice BiquadFilter 2) P_frequency 0 20000 (0 + 0.1) == 10000.
Proof.
  destruct (playSynthNote_filter_sweep linearDecay (λ _ _, 1) defaultSynthParams noEffects 300
              mountedEngine) as (_ & _ & _ & H & _).
  - reflexivity.
  - apply H. reflexivity.
Defined.

Lemma playDrumSound_kick_witness :
  timeline (newCalls mountedEngine (exec (playDrumSound defaultDrumParams kick) mountedEngine))
    (Voice Oscillator 0) P_frequency
  = [ setValueAtTime (150 + 50 * 5) 0; exponentialRampToValueAtTime 20 (0 + 200 / 1000) ].
Proof.
  destruct (playDrumSound_kick defaultDrumParams mountedEngine) as (_ & H & _).
  - reflexivity.
  - exact H.
Defined.

Lemma playDrumSound_ramp_times_witness :
  Forall (λ endTime, 0 < endTime)
    (exponentialRampTimes
       (newCalls mountedEngine (exec (playDrumSound defaultDrumParams snare) mountedEngine))).
Proof.
  destruct (playDrumSound_ramp_times defaultDrumParams snare mountedEngine) as (_ & _ & _ & H).
  - reflexivity.
  - vm_compute. discriminate.
  - vm_compute. discriminate.
  - apply H. cbn. lra.
Defined.

Lemma playDrumSound_bypasses_effects_witness :
  reaches (edges (exec (playDrumSound defaultDrumParams kick) mountedEngine))
    (Voice Oscillator 0) MasterGain.
Proof.
  destruct (playDrumSound_bypasses_effects defaultDrumParams kick mountedEngine)
    as (_ & _ & _ & H).
  - reflexivity.
  - apply H. by_compute.
Defined.


Lemma tick_sequencer_witness :
  ∃ a', tick demoApp = Some a'
        ∧ reachable a'
        ∧ currentStep a' = ((currentStep demoApp + 1) mod 16)%nat
        ∧ (currentStep a' < 16)%nat
        ∧ melodicFrequencies (newCalls (engine demoApp) (engine a')) =
            if stepActive (synthSequencer demoApp) (currentStep demoApp)
            then [300 + Qnat (currentStep demoApp) * 20] else [].
Proof.
  destruct (tick_sequencer demoApp) as (_ & _ & _ & H).
  - exact demoApp_reachable.
  - reflexivity.
  - reflexivity.
  - exact H.
Defined.

Lemma toggle_step_involutive_witness :
  toggleSynthSequencerStep 3 (toggleSynthSequencerStep 3 initialApp) = initialApp
  ∧ ∃ a1 steps1,
      toggleDrumSequencerStep "snare" 5 initialApp = Some a1
      ∧ toggleDrumSequencerStep "snare" 5 a1 = Some initialApp
      ∧ getLane (drumSequencer a1) "snare" = Some steps1
      ∧ length steps1 = 16%nat.
Proof.
  destruct toggle_step_involutive as [Hsynth Hdrum]. split.
  - destruct (Hsynth initialApp 3%nat) as (H & _); [reflexivity | lia | exact H].
  - destruct (Hdrum initialApp "snare" (replicate 16 false) 5%nat)
      as (a1 & steps1 & H1 & H2 & H3 & H4 & _); [reflexivity | reflexivity | lia |].
    exists a1, steps1. auto.
Defined.

(** * Further properties of the engine *)

(** ** What the operations leave alone *)

Lemma atNow_counters f e :
  nextId (exec (atNow f) e) = nextId e ∧ edges (exec (atNow f) e) = edges e.
Proof. by destruct e. Qed.

Lemma duckRestore_counters e :
  nextId (exec duckRestore e) = nextId e ∧ edges (exec duckRestore e) = edges e
  ∧ ready (exec duckRestore e) = ready e.
Proof. destruct e as [[] t n g cs]; run_audio; done. Qed.

Lemma updateDelayParams_counters sp e :
  nextId (exec (updateDelayParams sp) e) = nextId e
  ∧ edges (exec (updateDelayParams sp) e) = edges e
  ∧ ready (exec (updateDelayParams sp) e) = ready e.
Proof. destruct e as [[] t n g cs]; run_audio; done. Qed.

Lemma mountEffect_nextId e : nextId (exec mountEffect e) = nextId e.
Proof. destruct e as [r t n g cs]. by run_audio. Qed.

Lemma playSynthNote_nextId sp fx f e :
  ready e = true → nextId (exec (playSynthNote sp fx f) e) = S (S (S (nextId e))).
Proof.
  intros Hr. open_engine e. destruct fx as [[] [] [] ?]; by run_audio.
Qed.

Lemma playDrumSound_nextId dp type e :
  ready e = true →
  nextId (exec (playDrumSound dp type) e) =
    (nextId e + match type with
                | kick | tom | perc => 2 | clap => 3 | hihat => 4 | snare => 5
                end)%nat.
Proof.
  intros Hr. open_engine e. destruct type; run_audio; lia.
Qed.

Lemma playDrumSoundAny_not_ready dp instrument e :
  ready e = false → exec (playDrumSoundAny dp instrument) e = e.
Proof.
  intros Hr. unfold playDrumSoundAny. destruct (drumOfString instrument); [| done].
  unfold playDrumSound. by apply whenReady_not_ready.
Qed.

Lemma forEachEntry_not_ready dp step entries e :
  ready e = false →
  exec (forEachEntry entries (λ instrument steps,
          if stepActive steps step then playDrumSoundAny dp instrument else skip)) e = e.
Proof.
  intros Hr. induction entries as [| [instrument steps] rest IH]; [done |].
  cbn [forEachEntry]. rewrite exec_bind.
  assert (H1 : exec (if stepActive steps step then playDrumSoundAny dp instrument else skip) e
               = e).
  { destruct (stepActive steps step); [by apply playDrumSoundAny_not_ready | done]. }
  by rewrite H1.
Qed.

Lemma tickVoices_not_ready a :
  ready (engine a) = false → exec (tickVoices a) (engine a) = engine a.
Proof.
  intros Hr. unfold tickVoices. rewrite exec_bind.
  assert (H1 : exec (if stepActive (synthSequencer a) (currentStep a)
                     then playSynthNote (synthParams a) (effects a)
                            (300 + Qnat (currentStep a) * 20)
                     else skip) (engine a) = engine a).
  { destruct (stepActive _ _); [| done]. unfold playSynthNote.
    by apply whenReady_not_ready. }
  rewrite H1. by apply forEachEntry_not_ready.
Qed.

(** ** An induction principle for properties of the wiring

    A property of the allocation counter and the connections that the mount
    effect establishes and both kinds of trigger keep holds in every
    mounted state the component can reach. *)
Section WiringInvariant.
Variable P : nat → Graph → Prop.
Hypothesis P_mount : ∀ e, edges e = ∅ → P (nextId e) (edges (exec mountEffect e)).
Hypothesis P_synth : ∀ sp fx f e,
  ready e = true → P (nextId e) (edges e) →
  P (nextId (exec (playSynthNote sp fx f) e)) (edges (exec (playSynthNote sp fx f) e)).
Hypothesis P_drum : ∀ dp type e,
  ready e = true → P (nextId e) (edges e) →
  P (nextId (exec (playDrumSound dp type) e)) (edges (exec (playDrumSound dp type) e)).

Abbreviation holds := (holdsWiring P).

Lemma holds_forEachEntry dp step entries e :
  ready e = true → holds e →
  holds (exec (forEachEntry entries (λ instrument steps,
           if stepActive steps step then playDrumSoundAny dp instrument else skip)) e).
Proof using P_drum.
  revert e. induction entries as [| [instrument steps] rest IH]; intros e Hr He; [done |].
  cbn [forEachEntry]. rewrite exec_bind.
  set (e1 := exec (if stepActive steps step then _ else _) e).
  assert (H1 : ready e1 = true ∧ holds e1).
  { subst e1. destruct (stepActive steps step); [| done].
    unfold playDrumSoundAny. destruct (drumOfString instrument) as [type |]; [| done].
    destruct (playDrumSound_frame dp type e) as [Hr' _]. split; [congruence |].
    split; [congruence |]. intros _. apply P_drum; [done |]. by apply He. }
  destruct H1. by apply IH.
Qed.

Lemma holds_tickVoices a :
  holds (engine a) → holds (exec (tickVoices a) (engine a)).
Proof using P_synth P_drum.
  intros He. destruct (ready (engine a)) eqn:Hr.
  - unfold tickVoices. rewrite exec_bind.
    set (e1 := exec (if stepActive _ _ then _ else _) (engine a)).
    assert (H1 : ready e1 = true ∧ holds e1).
    { subst e1. destruct (stepActive _ _); [| done].
      destruct (playSynthNote_frame (synthParams a) (effects a)
                  (300 + Qnat (currentStep a) * 20) (engine a)) as [Hr' _].
      split; [congruence |]. split; [congruence |]. intros _.
      apply P_synth; [done |]. by apply He. }
    destruct H1. by apply holds_forEachEntry.
  - by rewrite tickVoices_not_ready.
Qed.

Lemma holds_step a a' : step a a' → holds (engine a) → holds (engine a').
Proof using P_mount P_synth P_drum.
  intros Hstep He. destruct Hstep as
    [a Hnr | a a' Hp Ht | a | a dt Hdt | a | a index Hi
    | a a' instrument steps index Hlane Hi Ht | a fx | a sp dp];
    cbn [setEngine togglePlay toggleSynthSequencerStep setEffects engine].
  - split; [by rewrite mountEffect_ready |]. intros _. rewrite mountEffect_nextId.
    apply P_mount. by apply He.
  - apply tick_unfold in Ht as (duck & _ & ->). cbn [setEngine engine].
    pose proof (holds_tickVoices a He) as H1.
    destruct (duck && ready (exec (tickVoices a) (engine a))); [| exact H1].
    destruct (atNow_spec (λ t, Automate DuckGain P_gain (setTargetAtTime 0.3 t 0.05))
                (exec (tickVoices a) (engine a))) as (Hr & _ & _ & _).
    destruct (atNow_counters (λ t, Automate DuckGain P_gain (setTargetAtTime 0.3 t 0.05))
                (exec (tickVoices a) (engine a))) as [Hn Hg].
    unfold holds. rewrite Hr, Hn, Hg. exact H1.
  - unfold fireTimeout. destruct (timeouts a); [exact He |]. cbn [setEngine engine].
    destruct (duckRestore_counters (engine a)) as (Hn & Hg & Hr).
    unfold holds. rewrite Hr, Hn, Hg. exact He.
  - exact He.
  - exact He.
  - exact He.
  - unfold toggleDrumSequencerStep in Ht.
    destruct (toggleDrumLane instrument index (drumSequencer a)); [| discriminate Ht].
    cbn in Ht. injection Ht as <-. exact He.
  - exact He.
  - cbn [setParams engine].
    destruct (updateDelayParams_counters sp (engine a)) as (Hn & Hg & Hr).
    unfold holds. rewrite Hr, Hn, Hg. exact He.
Qed.

Lemma mounted_tickVoices a :
  ready (engine a) = true → P (nextId (engine a)) (edges (engine a)) →
  P (nextId (exec (tickVoices a) (engine a))) (edges (exec (tickVoices a) (engine a))).
Proof using P_synth P_drum.
  intros Hr HP.
  assert (He : holds (engine a)) by (split; [congruence | done]).
  apply holds_tickVoices in He. apply He.
  by destruct (tickVoices_spec a) as (-> & _).
Qed.

(** Once mounted, no step needs the mount effect again. *)
Lemma mounted_step a a' :
  step a a' → ready (engine a) = true →
  P (nextId (engine a)) (edges (engine a)) → P (nextId (engine a')) (edges (engine a')).
Proof using P_synth P_drum.
  intros Hstep Hr HP. destruct Hstep as
    [a Hnr | a a' Hp Ht | a | a dt Hdt | a | a index Hi
    | a a' instrument steps index Hlane Hi Ht | a fx | a sp dp];
    cbn [setEngine togglePlay toggleSynthSequencerStep setEffects engine].
  - congruence.
  - apply tick_unfold in Ht as (duck & _ & ->). cbn [setEngine engine].
    pose proof (mounted_tickVoices a Hr HP) as H1.
    destruct (duck && ready (exec (tickVoices a) (engine a))); [| exact H1].
    destruct (atNow_counters (λ t, Automate DuckGain P_gain (setTargetAtTime 0.3 t 0.05))
                (exec (tickVoices a) (engine a))) as [Hn Hg].
    rewrite Hn, Hg. exact H1.
  - unfold fireTimeout. destruct (timeouts a); [exact HP |]. cbn [setEngine engine].
    destruct (duckRestore_counters (engine a)) as (Hn & Hg & _).
    rewrite Hn, Hg. exact HP.
  - exact HP.
  - exact HP.
  - exact HP.
  - unfold toggleDrumSequencerStep in Ht.
    destruct (toggleDrumLane instrument index (drumSequencer a)); [| discriminate Ht].
    cbn in Ht. injection Ht as <-. exact HP.
  - exact HP.
  - cbn [setParams engine].
    destruct (updateDelayParams_counters sp (engine a)) as (Hn & Hg & _).
    rewrite Hn, Hg. exact HP.
Qed.

Lemma holds_reachable a : reachable a → holds (engine a).
Proof using P_mount P_synth P_drum.
  revert a. apply (rtc_ind_r (λ a, holds (engine a))).
  - split; [done | discriminate].
  - intros y z _ Hs IH. by eapply holds_step.
Qed.
End WiringInvariant.

(** ** Every stage keeps a route to the output *)

Lemma routed_mount e : routed (edges (exec mountEffect e)).
Proof. rewrite mountEffect_edges. unfold routed. set_solver. Qed.

Lemma routed_superset g g' : g ⊆ g' → routed g → routed g'.
Proof. unfold routed. set_solver. Qed.

Lemma routed_playSynthNote sp fx f e :
  ready e = true → routed (edges e) → routed (edges (exec (playSynthNote sp fx f) e)).
Proof.
  intros Hr (H1 & H2 & H3 & H4). rewrite playSynthNote_edges by done. cbv zeta.
  unfold routed.
  destruct fx as [[] [] [] ?]; cbn [computeTopology chain delayEnabled reverbEnabled
    compressionEnabled app]; set_unfold; cbn [fst]; naive_solver.
Qed.

Lemma routed_playDrumSound dp type e :
  ready e = true → routed (edges e) → routed (edges (exec (playDrumSound dp type) e)).
Proof.
  intros Hr. apply routed_superset. rewrite playDrumSound_edges by done. set_solver.
Qed.

Lemma reachable_routed a :
  reachable a → ready (engine a) = true → routed (edges (engine a)).
Proof.
  intros Hreach. apply (holds_reachable (λ _ g, routed g)); [| | | done].
  - intros e _. apply routed_mount.
  - intros sp fx f e. apply routed_playSynthNote.
  - intros dp type e. apply routed_playDrumSound.
Qed.

Lemma routed_reaches g stage :
  routed g → stage ∈ [MasterGain; DelayNode; ReverbConvolver; CompressionNode] →
  reaches g stage Destination.
Proof.
  intros (H1 & H2 & H3 & H4) Hs.
  assert (Hc : reaches g CompressionNode Destination) by by apply rtc_once.
  assert (Hv : reaches g ReverbConvolver Destination).
  { destruct H3; [by eapply reaches_step | by apply rtc_once]. }
  set_unfold. destruct Hs as [-> | [-> | [-> | [-> | []]]]]; try done.
  - by eapply reaches_step.
  - destruct H4 as [H4 | [H4 | H4]]; [by eapply reaches_step | by eapply reaches_step
                                      | by apply rtc_once].
Qed.

(** X1. In every mounted state the component can reach, the master bus,
    the delay, the reverb and the compressor each have a path of
    connections to the hardware output: re-routing replaces a stage's
    outgoing connection, it never leaves a stage dangling. *)
Theorem stages_reach_output (a : App) (stage : AudioNode) :
  reachable a → ready (engine a) = true →
  stage ∈ [MasterGain; DelayNode; ReverbConvolver; CompressionNode] →
  reaches (edges (engine a)) stage Destination.
Proof.
  intros Hreach Hr Hs. apply routed_reaches; [| done]. by apply reachable_routed.
Qed.

Lemma stages_reach_output_witness :
  reaches (edges (engine demoApp)) DelayNode Destination.
Proof.
  apply (stages_reach_output demoApp DelayNode).
  - exact demoApp_reachable.
  - reflexivity.
  - by_compute.
Defined.

Lemma wellWired_master_closed g a b :
  wellWired g → reaches g a b →
  a ∈ [MasterGain; CompressionNode; Destination] →
  b ∈ [MasterGain; CompressionNode; Destination].
Proof.
  intros Hw Hab. induction Hab as [| x y z Hxy Hyz IH]; [done |].
  intros Hx. apply IH. apply Hw in Hxy. set_unfold.
  destruct Hx as [-> | [-> | [-> | []]]]; destruct y; try discriminate Hxy; auto.
Qed.

(** X2. In every state the component can reach, what enters the master
    bus can only go on to the compressor and the hardware output: no path
    leads from the master bus into the delay, its feedback gain, the reverb
    or the duck gain, whatever the flags are. *)
Theorem master_bus_bypasses_stages (a : App) (b : AudioNode) :
  reachable a →
  reaches (edges (engine a)) MasterGain b →
  b ∈ [MasterGain; CompressionNode; Destination].
Proof.
  intros Hreach Hb. destruct (reachable_appInv a Hreach) as [_ Hw _ _ _ _].
  eapply wellWired_master_closed; [done | done |]. set_solver.
Qed.

Lemma master_bus_bypasses_stages_witness :
  CompressionNode ∈ [MasterGain; CompressionNode; Destination].
Proof.
  apply (master_bus_bypasses_stages demoApp CompressionNode).
  - exact demoApp_reachable.
  - apply rtc_once. by_compute.
Defined.

(** ** Voice nodes are fresh *)

Lemma allocated_mount e : edges e = ∅ → allocated (nextId e) (edges (exec mountEffect e)).
Proof.
  intros He a b id. rewrite mountEffect_edges, He. set_unfold.
  intros [H | []] Hid. repeat destruct H as [H | H]; simplify_eq; by destruct Hid.
Qed.

Lemma allocated_playSynthNote sp fx f e :
  ready e = true → allocated (nextId e) (edges e) →
  allocated (nextId (exec (playSynthNote sp fx f) e)) (edges (exec (playSynthNote sp fx f) e)).
Proof.
  intros Hr Ha a b id. rewrite playSynthNote_nextId, playSynthNote_edges by done.
  cbv zeta. rewrite chain_stageEdges.
  intros [Hc | Hc]%elem_of_union Hid.
  - apply elem_of_list_to_set, elem_of_cons in Hc as [Hc | Hc].
    + simplify_eq. destruct fx as [[] [] [] ?]; cbn in Hid; destruct Hid; simplify_eq; lia.
    + destruct fx as [[] [] [] ?]; cbn in Hc; set_unfold;
        repeat destruct Hc as [Hc | Hc]; simplify_eq; by destruct Hid.
  - apply elem_of_filter in Hc as [_ Hc]. set_unfold.
    destruct Hc as [Hc | [Hc | Hc]].
    + simplify_eq. cbn in Hid. destruct Hid; simplify_eq; lia.
    + simplify_eq. cbn in Hid. destruct Hid; simplify_eq; lia.
    + specialize (Ha a b id Hc Hid). lia.
Qed.

Lemma allocated_playDrumSound dp type e :
  ready e = true → allocated (nextId e) (edges e) →
  allocated (nextId (exec (playDrumSound dp type) e)) (edges (exec (playDrumSound dp type) e)).
Proof.
  intros Hr Ha a b id. rewrite playDrumSound_nextId, playDrumSound_edges by done.
  intros [Hc | Hc]%elem_of_union Hid.
  - apply elem_of_list_to_set in Hc.
    destruct type; cbn in Hc; set_unfold; repeat destruct Hc as [Hc | Hc];
      simplify_eq; cbn in Hid; destruct Hid; simplify_eq; lia.
  - specialize (Ha a b id Hc Hid). destruct type; lia.
Qed.

Lemma reachable_allocated a :
  reachable a → ready (engine a) = true → allocated (nextId (engine a)) (edges (engine a)).
Proof.
  intros Hreach. apply (holds_reachable allocated); [| | | done].
  - apply allocated_mount.
  - apply allocated_playSynthNote.
  - apply allocated_playDrumSound.
Qed.

(** X3. In every mounted state the component can reach, no connection
    starts or ends at a voice node whose number has not been handed out
    yet: the nodes a trigger creates are not connected to anything before
    that trigger wires them, so triggers never share a voice node. *)
Theorem voice_nodes_fresh (a : App) (k : NodeKind) (id : nat) (b : AudioNode) :
  reachable a → ready (engine a) = true → (nextId (engine a) ≤ id)%nat →
  ((Voice k id, b) ∉ edges (engine a)) ∧ ((b, Voice k id) ∉ edges (engine a)).
Proof.
  intros Hreach Hr Hid. pose proof (reachable_allocated a Hreach Hr) as Ha.
  split; intros Hin.
  - specialize (Ha _ _ id Hin (or_introl eq_refl)). lia.
  - specialize (Ha _ _ id Hin (or_intror eq_refl)). lia.
Qed.

Lemma voice_nodes_fresh_witness :
  ((Voice BiquadFilter 2, Destination) ∉ edges (engine demoApp))
  ∧ ((Destination, Voice BiquadFilter 2) ∉ edges (engine demoApp)).
Proof.
  apply (voice_nodes_fresh demoApp BiquadFilter 2 Destination).
  - exact demoApp_reachable.
  - reflexivity.
  - vm_compute. lia.
Defined.

(** ** Triggered voices are heard *)

Lemma reaches_superset g g' a b : g ⊆ g' → reaches g a b → reaches g' a b.
Proof.
  intros Hsub Hab. induction Hab as [| x y z Hxy Hyz IH]; [apply rtc_refl |].
  eapply rtc_l; [| exact IH]. by apply Hsub.
Qed.

Lemma reaches_trans g a b c : reaches g a b → reaches g b c → reaches g a c.
Proof. intros H1 H2. by eapply (transitivity (R:=rtc _)). Qed.

Lemma chain_reaches g stages source :
  (∀ c, c ∈ chain source stages → c ∈ g) → reaches g source Destination.
Proof.
  revert source. induction stages as [| stage rest IH]; intros source H; cbn in H.
  - apply rtc_once, H. by left.
  - eapply rtc_l; [apply H; by left |]. apply IH. intros c Hc. apply H. by right.
Qed.

(** X4. A melodic note triggered on a mounted engine is audible: after
    [playSynthNote] there is a path of connections from the new oscillator
    through its gain and its filter to the hardware output, for every
    combination of flags. *)
Theorem playSynthNote_reaches_output (sp : SynthParams) (fx : EffectsGraphState) (f : Q)
    (e : Engine) :
  ready e = true →
  let e' := exec (playSynthNote sp fx f) e in
  (Voice Oscillator (nextId e), Voice Gain (S (nextId e))) ∈ edges e'
  ∧ (Voice Gain (S (nextId e)), Voice BiquadFilter (S (S (nextId e)))) ∈ edges e'
  ∧ reaches (edges e') (Voice Oscillator (nextId e)) Destination.
Proof.
  intros Hr e'. subst e'. rewrite playSynthNote_edges by done. cbv zeta.
  set (id := nextId e). set (g := list_to_set _ ∪ filter _ _).
  assert (H1 : (Voice Oscillator id, Voice Gain (S id)) ∈ g).
  { subst g. apply elem_of_union_r, elem_of_filter. split; [| set_solver].
    split_and!; [discriminate | intros _; discriminate | intros _; discriminate]. }
  assert (H2 : (Voice Gain (S id), Voice BiquadFilter (S (S id))) ∈ g).
  { subst g. apply elem_of_union_r, elem_of_filter. split; [| set_solver].
    split_and!; [discriminate | intros _; discriminate | intros _; discriminate]. }
  split; [done |]. split; [done |].
  apply (reaches_step _ _ _ _ H1), (reaches_step _ _ _ _ H2).
  assert (Hchain : ∀ c, c ∈ chain (Voice BiquadFilter (S (S id))) (computeTopology fx) → c ∈ g).
  { intros c Hc. subst g. by apply elem_of_union_l, elem_of_list_to_set. }
  by apply (chain_reaches g (computeTopology fx)).
Qed.

Lemma playSynthNote_reaches_output_witness :
  reaches (edges (exec (playSynthNote defaultSynthParams allEffects 300) mountedEngine))
    (Voice Oscillator 0) Destination.
Proof.
  destruct (playSynthNote_reaches_output defaultSynthParams allEffects 300 mountedEngine)
    as (_ & _ & H).
  - reflexivity.
  - exact H.
Defined.

Lemma drumSources_reach_master type id g source :
  source ∈ drumSources type id →
  reaches (list_to_set (drumEdges type id) ∪ g) source MasterGain.
Proof.
  intros Hs.
  destruct type; cbn in Hs; set_unfold in Hs; repeat destruct Hs as [Hs | Hs];
    try done; subst source.
  - hop (Voice Gain (S id)). hop KickGain. hop MasterGain. apply rtc_refl.
  - hop (Voice Gain (S (S id))). hop MasterGain. apply rtc_refl.
  - hop (Voice Gain (S (S (S (S id))))). hop MasterGain. apply rtc_refl.
  - hop (Voice BiquadFilter (S (S (S id)))). hop (Voice Gain (S (S id))).
    hop MasterGain. apply rtc_refl.
  - hop (Voice Gain (S id)). hop MasterGain. apply rtc_refl.
  - hop (Voice Gain (S (S id))). hop MasterGain. apply rtc_refl.
  - hop (Voice Gain (S id)). hop MasterGain. apply rtc_refl.
Qed.

(** X5. A drum hit triggered in a mounted state the component can reach
    is audible, and only through the compressor: each generator it creates
    has a path to the hardware output, and no path from it leads to the
    delay, the feedback gain, the reverb or the duck gain. *)
Theorem playDrumSound_reaches_output (a : App) (dp : DrumParams) (type : DrumType)
    (source b : AudioNode) :
  reachable a → ready (engine a) = true →
  source ∈ drumSources type (nextId (engine a)) →
  let g' := edges (exec (playDrumSound dp type) (engine a)) in
  reaches g' source Destination
  ∧ (reaches g' source b →
     b ∉ [DelayNode; DelayFeedbackGain; ReverbConvolver; DuckGain]).
Proof.
  intros Hreach Hr Hs g'. subst g'.
  pose proof (reachable_routed a Hreach Hr) as Hrouted.
  rewrite playDrumSound_edges by done.
  split.
  - eapply reaches_trans; [by apply drumSources_reach_master |].
    eapply (reaches_superset (edges (engine a))); [set_solver |].
    apply routed_reaches; [done | set_solver].
  - destruct (reachable_appInv a Hreach) as [_ Hw _ _ _ _].
    assert (Hfresh : ∀ k id y, (nextId (engine a) ≤ id)%nat →
                               (Voice k id, y) ∉ edges (engine a)).
    { intros k id y Hid Hin.
      pose proof (reachable_allocated a Hreach Hr _ _ id Hin (or_introl eq_refl)). lia. }
    set (g := edges (engine a)) in *. set (n := nextId (engine a)) in *.
    (* the nodes a path from a generator of this trigger can visit *)
    set (own x := (∃ k id, x = Voice k id ∧ (n ≤ id)%nat) ∨ x = KickGain
                  ∨ x ∈ [MasterGain; CompressionNode; Destination]).
    assert (Hclosed : ∀ x y, own x → (x, y) ∈ list_to_set (drumEdges type n) ∪ g → own y).
    { intros x y Hx [Hxy | Hxy]%elem_of_union.
      - apply elem_of_list_to_set in Hxy. unfold own.
        destruct type; cbn in Hxy; set_unfold; repeat destruct Hxy as [Hxy | Hxy];
          simplify_eq; try (left; eexists _, _; split; [reflexivity | lia]);
          try (right; left; reflexivity); try (right; right; by left).
      - destruct Hx as [(k & id & -> & Hid) | [-> | Hx]].
        + by apply Hfresh in Hxy.
        + apply Hw in Hxy. destruct y; try discriminate Hxy. right. right. set_solver.
        + right. right. eapply (wellWired_master_closed g x y Hw); [by apply rtc_once | done]. }
    assert (Hown : ∀ x y, reaches (list_to_set (drumEdges type n) ∪ g) x y → own x → own y).
    { intros x y Hxy. induction Hxy as [| x y z Hxy Hyz IH]; [done |].
      intros Hx. apply IH. by eapply Hclosed. }
    intros Hb. assert (Hsrc : own source).
    { left. destruct type; cbn in Hs; set_unfold; repeat destruct Hs as [Hs | Hs];
        try done; subst source; eexists _, _; split; try reflexivity; lia. }
    specialize (Hown _ _ Hb Hsrc). set_unfold.
    intros [-> | [-> | [-> | [-> | []]]]];
      destruct Hown as [(k & id & Heq & _) | [Heq | Hin]]; try discriminate Heq;
      set_unfold; naive_solver.
Qed.

Lemma playDrumSound_reaches_output_witness :
  reaches (edges (exec (playDrumSound defaultDrumParams snare) (engine demoApp)))
    (Voice Oscillator 3) Destination.
Proof.
  destruct (playDrumSound_reaches_output demoApp defaultDrumParams snare (Voice Oscillator 3)
              Destination) as (H & _).
  - exact demoApp_reachable.
  - reflexivity.
  - by_compute.
  - exact H.
Defined.

(** ** What routing and the flags do not touch *)

Lemma chain_sources fx k id c :
  c ∈ chain (Voice k id) (computeTopology fx) →
  c.1 = Voice k id ∨ (delayEnabled fx = true ∧ c.1 = DelayNode)
  ∨ (reverbEnabled fx = true ∧ c.1 = ReverbConvolver)
  ∨ c = (CompressionNode, Destination).
Proof.
  destruct fx as [[] [] [] ?]; cbn; set_unfold; intros H;
    repeat destruct H as [H | H]; subst; cbn; naive_solver.
Qed.

(** X6. Routing a voice node changes nothing but connections, and of
    those only the ones leaving the source, an enabled delay and an enabled
    reverb, apart from adding compressor -> output: every other connection
    is there afterwards exactly when it was there before, and the call log,
    the clock and the allocation counter are untouched. *)
Theorem connectToEffectsChain_frame_edges (fx : EffectsGraphState) (k : NodeKind) (id : nat)
    (e : Engine) (a b : AudioNode) :
  ready e = true →
  a ≠ Voice k id →
  (delayEnabled fx = true → a ≠ DelayNode) →
  (reverbEnabled fx = true → a ≠ ReverbConvolver) →
  (a, b) ≠ (CompressionNode, Destination) →
  let e' := exec (connectToEffectsChain fx (Voice k id)) e in
  ((a, b) ∈ edges e' ↔ (a, b) ∈ edges e)
  ∧ calls e' = calls e ∧ nextId e' = nextId e ∧ currentTime e' = currentTime e.
Proof.
  intros Hr Hsrc Hd Hv Hc e'. subst e'.
  destruct (connectToEffectsChain_frame fx (Voice k id) e) as (_ & Ht & Hn & Hcalls).
  split; [| done]. rewrite connectToEffectsChain_edges by done.
  rewrite elem_of_union, elem_of_list_to_set, elem_of_filter. cbn [fst]. split.
  - intros [Hin | [_ Hin]]; [| done].
    apply chain_sources in Hin. cbn [fst] in Hin. naive_solver.
  - intros Hin. right. done.
Qed.

Lemma connectToEffectsChain_frame_edges_witness :
  (DelayFeedbackGain, DelayNode)
    ∈ edges (exec (connectToEffectsChain allEffects (Voice BiquadFilter 2)) mountedEngine)
  ↔ (DelayFeedbackGain, DelayNode) ∈ edges mountedEngine.
Proof.
  destruct (connectToEffectsChain_frame_edges allEffects BiquadFilter 2 mountedEngine
              DelayFeedbackGain DelayNode) as (H & _); try discriminate.
  - reflexivity.
  - exact H.
Defined.

(** X7. The flags decide the routing of a melodic note and nothing else:
    the calls [playSynthNote] makes, and the nodes it allocates, are the
    same for any two flag states, and two flag states that differ in
    duck-on-kick only leave the engine in the same state. *)
Theorem playSynthNote_flags_only_route (sp : SynthParams) (fx fx' : EffectsGraphState)
    (f : Q) (e : Engine) :
  calls (exec (playSynthNote sp fx f) e) = calls (exec (playSynthNote sp fx' f) e)
  ∧ nextId (exec (playSynthNote sp fx f) e) = nextId (exec (playSynthNote sp fx' f) e)
  ∧ (delayEnabled fx = delayEnabled fx' → reverbEnabled fx = reverbEnabled fx' →
     compressionEnabled fx = compressionEnabled fx' →
     exec (playSynthNote sp fx f) e = exec (playSynthNote sp fx' f) e).
Proof.
  destruct (ready e) eqn:Hr.
  - split; [by rewrite !playSynthNote_calls |].
    split; [by rewrite !playSynthNote_nextId |].
    destruct fx as [d r c k], fx' as [d' r' c' k']. cbn. intros <- <- <-.
    open_engine e. destruct d, r, c; run_audio; reflexivity.
  - unfold playSynthNote. rewrite !whenReady_not_ready by done. done.
Qed.

Lemma playSynthNote_flags_only_route_witness :
  exec (playSynthNote defaultSynthParams allEffects 300) mountedEngine
  = exec (playSynthNote defaultSynthParams
            {| delayEnabled := true; reverbEnabled := true; compressionEnabled := true;
               duckKick := false |} 300) mountedEngine.
Proof.
  destruct (playSynthNote_flags_only_route defaultSynthParams allEffects
              {| delayEnabled := true; reverbEnabled := true; compressionEnabled := true;
                 duckKick := false |} 300 mountedEngine) as (_ & _ & H).
  apply H; reflexivity.
Defined.

(** ** Lifetimes of the voices *)

(** X8. A melodic note starts one oscillator, at the trigger time, and
    stops that same oscillator [attack/100 + decay/100 + release/100 + 0.1]
    seconds later; this is ten release time constants plus 0.1 s after the
    end of the decay ramp.  The note allocates three nodes. *)
Theorem playSynthNote_lifetime (sp : SynthParams) (fx : EffectsGraphState) (f : Q)
    (e : Engine) :
  ready e = true →
  let t0 := currentTime e in
  let osc := Voice Oscillator (nextId e) in
  let e' := exec (playSynthNote sp fx f) e in
  let cs := newCalls e e' in
  startedNodes cs = [osc]
  ∧ Start osc (Some t0) ∈ cs
  ∧ stopTimes cs =
      [(osc, t0 + attack sp / 100 + decay sp / 100 + release sp / 100 + 0.1)]
  ∧ t0 + attack sp / 100 + decay sp / 100 + release sp / 100 + 0.1
      - (t0 + attack sp / 100 + decay sp / 100)
    == 10 * (release sp / 100 / 10) + 0.1
  ∧ nextId e' = (nextId e + 3)%nat.
Proof.
  intros Hr t0 osc e' cs. subst cs e' osc t0.
  rewrite (newCalls_app _ _ _ (playSynthNote_calls sp fx f e Hr)).
  rewrite playSynthNote_nextId by done.
  split; [done |]. split; [unfold synthCalls; set_solver |]. split; [done |].
  split; [| lia]. field.
Qed.

Lemma playSynthNote_lifetime_witness :
  stopTimes (newCalls mountedEngine
               (exec (playSynthNote defaultSynthParams noEffects 300) mountedEngine))
  = [(Voice Oscillator 0, 0 + 20 / 100 + 40 / 100 + 30 / 100 + 0.1)].
Proof.
  destruct (playSynthNote_lifetime defaultSynthParams noEffects 300 mountedEngine)
    as (_ & _ & H & _).
  - reflexivity.
  - exact H.
Defined.

(** X9. Every generator a drum trigger starts it also stops, and no
    other node: the started nodes and the stopped nodes are the trigger's
    own sources; kick, tom and perc stop 50 ms after the end of the decay
    ramp, snare (noise and oscillator), hi-hat and clap exactly at its end. *)
Theorem playDrumSound_lifetime (dp : DrumParams) (type : DrumType) (e : Engine) :
  ready e = true →
  let t := currentTime e in
  let cs := newCalls e (exec (playDrumSound dp type) e) in
  startedNodes cs = drumSources type (nextId e)
  ∧ stopTimes cs = (λ n, (n, drumStopTime dp type t)) <$> drumSources type (nextId e)
  ∧ Forall (λ endTime, drumStopTime dp type t - endTime == 0.05
                       ∨ drumStopTime dp type t - endTime == 0)
      (exponentialRampTimes cs).
Proof.
  intros Hr t cs. subst cs t.
  rewrite (newCalls_app _ _ _ (playDrumSound_calls dp type e Hr)).
  split; [by destruct type |]. split; [by destruct type |].
  rewrite exponentialRampTimes_drumCalls.
  destruct type; cbn [drumStopTime decayOf];
    repeat (apply Forall_cons_2; [first [left; ring | right; ring] |]); apply Forall_nil_2.
Qed.

Lemma playDrumSound_lifetime_witness :
  startedNodes (newCalls mountedEngine (exec (playDrumSound defaultDrumParams snare) mountedEngine))
  = [Voice BufferSource 1; Voice Oscillator 3].
Proof.
  destruct (playDrumSound_lifetime defaultDrumParams snare mountedEngine) as (H & _).
  - reflexivity.
  - exact H.
Defined.

(** ** The sequencer before mounting, and the duck timeouts *)

(** X10. A tick that fires before the audio engine is mounted makes no
    call and no connection and schedules no timeout, but still advances
    the step. *)
Theorem tick_before_mount (a : App) :
  ready (engine a) = false →
  is_Some (getLane (drumSequencer a) "kick") →
  ∃ a', tick a = Some a'
        ∧ engine a' = engine a
        ∧ timeouts a' = timeouts a
        ∧ currentStep a' = ((currentStep a + 1) mod 16)%nat.
Proof.
  intros Hr Hk. destruct (tick_total a Hk) as [a' Ht]. exists a'. split; [done |].
  apply tick_unfold in Ht as (duck & _ & ->). cbn [setEngine engine timeouts currentStep].
  rewrite tickVoices_not_ready by done. rewrite Hr, andb_false_r. done.
Qed.

Lemma tick_before_mount_witness :
  ∃ a', tick (togglePlay initialApp) = Some a'
        ∧ engine a' = engine (togglePlay initialApp)
        ∧ timeouts a' = timeouts (togglePlay initialApp)
        ∧ currentStep a' = ((currentStep (togglePlay initialApp) + 1) mod 16)%nat.
Proof.
  apply (tick_before_mount (togglePlay initialApp)).
  - reflexivity.
  - by eexists.
Defined.

Lemma stepTime_positive tempo : 0 < tempo → 0 < stepTime tempo.
Proof.
  intros H. unfold stepTime.
  assert (H1 : 0 < 60 / tempo) by (apply Qlt_shift_div_l; lra).
  apply Qlt_shift_div_l; [lra |]. nra.
Qed.

(** X11. A tick on a mounted engine adds a pending timeout exactly when
    compression and duck-on-kick are enabled and the kick lane is active at
    the current step; its delay is 0.75 of the step time, so with a
    positive tempo the restore is due after the tick and before the next
    tick. *)
Theorem tick_duck_timeout (a a' : App) (steps : list bool) :
  ready (engine a) = true →
  tick a = Some a' →
  getLane (drumSequencer a) "kick" = Some steps →
  0 < tempo (drumParams a) →
  timeouts a' =
    timeouts a ++
      (if compressionEnabled (effects a) && duckKick (effects a)
          && stepActive steps (currentStep a)
       then [stepTime (tempo (drumParams a)) * 0.75] else [])
  ∧ 0 < stepTime (tempo (drumParams a)) * 0.75
  ∧ stepTime (tempo (drumParams a)) * 0.75 < stepTime (tempo (drumParams a)).
Proof.
  intros Hr (duck & Hduck & ->)%tick_unfold Hk Htempo.
  pose proof (stepTime_positive _ Htempo) as Hpos.
  split; [| split; lra].
  destruct (tickVoices_spec a) as (Hr1 & _).
  unfold duckCondition in Hduck. rewrite Hk in Hduck.
  assert (Hduck' : duck = compressionEnabled (effects a) && duckKick (effects a)
                          && stepActive steps (currentStep a)).
  { destruct (compressionEnabled (effects a) && duckKick (effects a)); cbn in *; congruence. }
  rewrite <- Hduck'. cbn [setEngine timeouts]. rewrite Hr1, Hr, andb_true_r.
  destruct duck; [done | by rewrite app_nil_r].
Qed.

Lemma tick_duck_timeout_witness :
  ∃ a', tick demoApp = Some a'
        ∧ timeouts a' = timeouts demoApp ++ [stepTime (tempo (drumParams demoApp)) * 0.75].
Proof.
  destruct (tick_total demoApp) as [a' Ht]; [by eexists |].
  exists a'. split; [exact Ht |].
  destruct (tick_duck_timeout demoApp a' (toggled (replicate 16 false) 0)) as (H & _).
  - reflexivity.
  - exact Ht.
  - reflexivity.
  - reflexivity.
  - exact H.
Defined.

(** X12. When a pending timeout fires on a mounted engine it is removed
    from the queue and makes one call, a move of the duck gain back
    towards 1 with time constant 0.1 s from the current time; connections,
    step and patterns stay as they are.  With nothing pending, firing does
    nothing. *)
Theorem fireTimeout_restores (a : App) :
  ready (engine a) = true →
  let a' := fireTimeout a in
  timeouts a' = tail (timeouts a)
  ∧ newCalls (engine a) (engine a') =
      match timeouts a with
      | [] => []
      | _ :: _ => [Automate DuckGain P_gain (setTargetAtTime 1 (currentTime (engine a)) 0.1)]
      end
  ∧ edges (engine a') = edges (engine a)
  ∧ currentStep a' = currentStep a
  ∧ synthSequencer a' = synthSequencer a ∧ drumSequencer a' = drumSequencer a.
Proof.
  intros Hr a'. subst a'. unfold fireTimeout. destruct (timeouts a) as [| d ts] eqn:Hts.
  - split_and!; try reflexivity; [done |]. apply (newCalls_app _ _ []). by rewrite app_nil_r.
  - cbn [setEngine timeouts engine currentStep synthSequencer drumSequencer tail].
    destruct (duckRestore_spec (engine a)) as (_ & _ & He & Hc). rewrite Hr in Hc.
    split_and!; try reflexivity; [| done]. by apply newCalls_app.
Qed.

Lemma fireTimeout_restores_witness :
  timeouts duckedApp = [stepTime (tempo (drumParams demoApp)) * 0.75]
  ∧ timeouts (fireTimeout duckedApp) = []
  ∧ newCalls (engine duckedApp) (engine (fireTimeout duckedApp)) =
      [Automate DuckGain P_gain (setTargetAtTime 1 (currentTime (engine duckedApp)) 0.1)].
Proof.
  assert (Hts : timeouts duckedApp = [stepTime (tempo (drumParams demoApp)) * 0.75])
    by (vm_compute; reflexivity).
  destruct (fireTimeout_restores duckedApp) as (H1 & H2 & _).
  - vm_compute. reflexivity.
  - rewrite Hts in H1, H2. cbn [tail] in H1. split; [exact Hts |]. split; [exact H1 | exact H2].
Defined.

(** ** The step cursor *)

Lemma tick_keeps_patterns a a' :
  tick a = Some a' →
  drumSequencer a' = drumSequencer a ∧ synthSequencer a' = synthSequencer a
  ∧ currentStep a' = ((currentStep a + 1) mod 16)%nat.
Proof. by intros (duck & _ & ->)%tick_unfold. Qed.

Lemma ticks_spec n : ∀ a,
  is_Some (getLane (drumSequencer a) "kick") →
  ∃ a', ticks n a = Some a'
        ∧ drumSequencer a' = drumSequencer a ∧ synthSequencer a' = synthSequencer a
        ∧ (currentStep a' mod 16 = (currentStep a + n) mod 16)%nat.
Proof.
  induction n as [| n IH]; intros a Hk.
  - exists a. split_and!; try done. by rewrite Nat.add_0_r.
  - destruct (tick_total a Hk) as [a1 Ht].
    destruct (tick_keeps_patterns a a1 Ht) as (Hd & Hs & Hc).
    destruct (IH a1) as (a' & Hticks & Hd' & Hs' & Hc'); [by rewrite Hd |].
    exists a'. cbn [ticks]. rewrite Ht. cbn. split_and!; [done | congruence | congruence |].
    rewrite Hc', Hc, Nat.Div0.add_mod_idemp_l. f_equal. lia.
Qed.

Lemma ticks_step_bound m : ∀ a a',
  (currentStep a < 16)%nat → ticks m a = Some a' → (currentStep a' < 16)%nat.
Proof.
  induction m as [| m IH]; intros a a' Hs Hm.
  - cbn in Hm. by injection Hm as <-.
  - cbn [ticks] in Hm. destruct (tick a) as [a1 |] eqn:Ht; [| done]. cbn in Hm.
    apply (IH a1); [| done].
    destruct (tick_keeps_patterns a a1 Ht) as (_ & _ & ->).
    apply Nat.mod_upper_bound. lia.
Qed.

(** X13. Sixteen ticks make one bar: from any state with a kick lane
    and a step below 16, sixteen ticks in a row all succeed and bring the
    step back to where it was, with both patterns unchanged; after [n]
    ticks the step is [(currentStep + n) mod 16]. *)
Theorem ticks_bar (a : App) (n : nat) :
  is_Some (getLane (drumSequencer a) "kick") →
  (currentStep a < 16)%nat →
  (∃ a', ticks n a = Some a'
         ∧ currentStep a' = ((currentStep a + n) mod 16)%nat)
  ∧ (∃ a', ticks 16 a = Some a'
           ∧ currentStep a' = currentStep a
           ∧ synthSequencer a' = synthSequencer a
           ∧ drumSequencer a' = drumSequencer a).
Proof.
  intros Hk Hs. pose proof (λ m a', ticks_step_bound m a a' Hs) as Hlt.
  split.
  - destruct (ticks_spec n a Hk) as (a' & Ht & _ & _ & Hc). exists a'. split; [done |].
    rewrite <- Hc. symmetry. apply Nat.mod_small. by eapply Hlt.
  - destruct (ticks_spec 16 a Hk) as (a' & Ht & Hd & Hsy & Hc). exists a'.
    split_and!; try done.
    rewrite <- (Nat.mod_small (currentStep a') 16) by by eapply Hlt.
    rewrite Hc. replace (currentStep a + 16)%nat with (currentStep a + 1 * 16)%nat by lia.
    rewrite Nat.Div0.mod_add. by apply Nat.mod_small.
Qed.

Lemma ticks_bar_witness :
  ∃ a', ticks 16 demoApp = Some a'
        ∧ currentStep a' = currentStep demoApp
        ∧ synthSequencer a' = synthSequencer demoApp
        ∧ drumSequencer a' = drumSequencer demoApp.
Proof.
  destruct (ticks_bar demoApp 16) as (_ & H).
  - by eexists.
  - vm_compute. lia.
  - exact H.
Defined.

(** X14. The tick period: for a positive tempo sixteen steps last
    [(60 / tempo) * 4000] ms, one step [15000 / tempo] ms, and for tempos
    between 60 and 180 BPM a step lasts between 250/3 ms and 250 ms. *)
Theorem stepTime_bar (tempo : Q) :
  0 < tempo →
  16 * stepTime tempo == (60 / tempo) * 4000
  ∧ stepTime tempo == 15000 / tempo
  ∧ (60 <= tempo → tempo <= 180 → 250 / 3 <= stepTime tempo ∧ stepTime tempo <= 250).
Proof.
  intros Hpos. unfold stepTime.
  assert (Hne : ¬ tempo == 0) by lra.
  assert (H15 : 60 / tempo * 1000 / 4 == 15000 / tempo) by (field; done).
  split; [field; done |]. split; [done |]. intros Hlo Hhi. rewrite H15. split.
  - apply Qle_shift_div_l; [done |]. setoid_replace (250 / 3 * tempo) with (tempo * (250 # 3))
      using relation Qeq by field. lra.
  - apply Qle_shift_div_r; [done |]. lra.
Qed.

Lemma stepTime_bar_witness : 16 * stepTime 120 == (60 / 120) * 4000.
Proof.
  destruct (stepTime_bar 120) as (H & _).
  - reflexivity.
  - exact H.
Defined.

(** ** Drum parameters *)

(** X15. Each drum reads only its own tone and decay parameters: editing
    any other parameter through [handleDrumParamChange], in particular the
    snare's noise amount or the tempo, which no drum reads, changes nothing
    in what a trigger of that drum does. *)
Theorem playDrumSound_reads_own_params (param : DrumParamKey) (value : Q) (dp : DrumParams)
    (type : DrumType) (e : Engine) :
  param ∉ paramsRead type →
  exec (playDrumSound (handleDrumParamChange param value dp) type) e
  = exec (playDrumSound dp type) e.
Proof.
  intros Hp. destruct e as [[] t n g cs]; [| by destruct type].
  destruct type, param; try (exfalso; apply Hp; cbn; set_solver);
    run_audio; cbn; reflexivity.
Qed.

Lemma playDrumSound_reads_own_params_witness :
  exec (playDrumSound (handleDrumParamChange K_snareNoise 0 defaultDrumParams) snare)
    mountedEngine
  = exec (playDrumSound defaultDrumParams snare) mountedEngine.
Proof.
  apply (playDrumSound_reads_own_params K_snareNoise 0 defaultDrumParams snare mountedEngine).
  by_compute.
Defined.

Ltac solve_drum_timeline :=
  unfold timeline; cbn -[Qplus Qdiv Qmult Qminus];
  repeat (first [ rewrite decide_True by done
                | rewrite decide_False
                    by (intros [Hn Hp]; first [discriminate Hp | discriminate Hn
                                               | injection Hn; lia]) ];
          cbn -[Qplus Qdiv Qmult Qminus]);
  reflexivity.

(** X16. The envelopes of the six drums: every per-hit gain is set to
    its start level at the trigger time (1 for kick, 0.5 and 0.3 for the
    snare's noise and oscillator, 0.3 hi-hat, 0.7 tom, 0.5 clap and perc)
    and ramped exponentially to its floor [decay/1000] seconds later;
    snare, tom and perc oscillators and the hi-hat filter get one fixed
    frequency; and no exponential ramp targets zero: the targets are 20,
    0.001 or 0.01. *)
Theorem playDrumSound_envelopes (dp : DrumParams) (type : DrumType) (e : Engine) :
  ready e = true →
  let t := currentTime e in
  let cs := newCalls e (exec (playDrumSound dp type) e) in
  Forall (λ '(n, (level, floor)),
            timeline cs n P_gain =
              [ setValueAtTime level t;
                exponentialRampToValueAtTime floor (t + decayOf dp type / 1000) ])
    (drumGains type (nextId e))
  ∧ Forall (λ '(n, freq), timeline cs n P_frequency = [setValueAtTime freq t])
      (drumTuning dp type (nextId e))
  ∧ Forall (λ v, 0 < v ∧ (v = 20 ∨ v = 0.001 ∨ v = 0.01)) (exponentialRampTargets cs).
Proof.
  intros Hr t cs. subst cs t.
  rewrite (newCalls_app _ _ _ (playDrumSound_calls dp type e Hr)).
  split; [| split].
  - destruct type; cbn [drumGains drumCalls decayOf];
      repeat (apply Forall_cons_2; [solve_drum_timeline |]); apply Forall_nil_2.
  - destruct type; cbn [drumTuning drumCalls];
      repeat (apply Forall_cons_2; [solve_drum_timeline |]); apply Forall_nil_2.
  - destruct type; cbn;
      repeat (apply Forall_cons_2; [split; [reflexivity | auto] |]); apply Forall_nil_2.
Qed.

Lemma playDrumSound_envelopes_witness :
  Forall (λ v, 0 < v ∧ (v = 20 ∨ v = 0.001 ∨ v = 0.01))
    (exponentialRampTargets
       (newCalls mountedEngine (exec (playDrumSound defaultDrumParams kick) mountedEngine))).
Proof.
  destruct (playDrumSound_envelopes defaultDrumParams kick mountedEngine) as (_ & _ & H).
  - reflexivity.
  - exact H.
Defined.

(** ** Patterns at their edges *)

(** X17. Toggling a melodic step at an index at or past the end of the
    pattern grows the pattern to [index + 1] steps with the new last step
    on, the old steps unchanged and the steps in between off; toggling the
    same index again switches it off but does not shrink the pattern, so
    the original is not restored. *)
Theorem toggleSynthSequencerStep_out_of_range (a : App) (index : nat) :
  (length (synthSequencer a) ≤ index)%nat →
  let a1 := toggleSynthSequencerStep index a in
  let a2 := toggleSynthSequencerStep index a1 in
  length (synthSequencer a1) = S index
  ∧ synthSequencer a1 !! index = Some true
  ∧ (∀ j, (j < length (synthSequencer a))%nat →
       synthSequencer a1 !! j = synthSequencer a !! j)
  ∧ (∀ j, (length (synthSequencer a) ≤ j < index)%nat → synthSequencer a1 !! j = Some false)
  ∧ length (synthSequencer a2) = S index
  ∧ synthSequencer a2 !! index = Some false
  ∧ synthSequencer a2 ≠ synthSequencer a.
Proof.
  intros Hi a1 a2. subst a2 a1. cbn [toggleSynthSequencerStep synthSequencer].
  set (arr := synthSequencer a) in *.
  assert (Hact : stepActive arr index = false).
  { unfold stepActive. by rewrite lookup_ge_None_2. }
  assert (H1 : arrayAssign arr index (negb (stepActive arr index))
               = arr ++ replicate (index - length arr) false ++ [true]).
  { unfold arrayAssign. rewrite decide_False by lia. by rewrite Hact. }
  rewrite H1. set (arr1 := arr ++ replicate (index - length arr) false ++ [true]).
  assert (Hlen : length arr1 = S index).
  { subst arr1. rewrite !length_app, length_replicate. cbn. lia. }
  assert (Hlast : arr1 !! index = Some true).
  { subst arr1. rewrite lookup_app_r by lia. rewrite lookup_app_r; rewrite length_replicate;
      [| lia]. by replace (index - length arr - (index - length arr))%nat with 0%nat by lia. }
  assert (H2 : arrayAssign arr1 index (negb (stepActive arr1 index)) = <[index := false]> arr1).
  { unfold arrayAssign. rewrite decide_True by lia. unfold stepActive. by rewrite Hlast. }
  rewrite H2. split_and!.
  - done.
  - done.
  - intros j Hj. subst arr1. by rewrite lookup_app_l.
  - intros j Hj. subst arr1. rewrite lookup_app_r by lia. rewrite lookup_app_l;
      [| rewrite length_replicate; lia]. apply lookup_replicate_2. lia.
  - by rewrite length_insert.
  - apply list_lookup_insert_eq. lia.
  - intros Heq. apply (f_equal length) in Heq. rewrite length_insert in Heq. lia.
Qed.

Lemma toggleSynthSequencerStep_out_of_range_witness :
  length (synthSequencer (toggleSynthSequencerStep 20 initialApp)) = 21%nat.
Proof.
  destruct (toggleSynthSequencerStep_out_of_range initialApp 20) as (H & _).
  - cbn. lia.
  - exact H.
Defined.

(** X18. Toggling a drum step fails exactly when the instrument is not a
    key of the drum pattern; when it succeeds the keys of the pattern and
    their order are the same as before, so lanes are never added, dropped
    or reordered, and nothing but the drum pattern changes. *)
Theorem toggleDrumSequencerStep_keys (a : App) (instrument : string) (index : nat) :
  (toggleDrumSequencerStep instrument index a = None
   ↔ getLane (drumSequencer a) instrument = None)
  ∧ (∀ a1, toggleDrumSequencerStep instrument index a = Some a1 →
       (drumSequencer a1).*1 = (drumSequencer a).*1
       ∧ synthSequencer a1 = synthSequencer a
       ∧ currentStep a1 = currentStep a
       ∧ isPlaying a1 = isPlaying a
       ∧ engine a1 = engine a).
Proof.
  unfold toggleDrumSequencerStep, toggleDrumLane.
  destruct (getLane (drumSequencer a) instrument) as [steps |] eqn:Hlane; cbn.
  - split; [done |]. intros a1 [= <-]. cbn. split_and!; try done.
    by eapply setLane_keys.
  - done.
Qed.

Lemma toggleDrumSequencerStep_keys_witness :
  toggleDrumSequencerStep "cowbell" 0 initialApp = None.
Proof.
  destruct (toggleDrumSequencerStep_keys initialApp "cowbell" 0) as [H _].
  apply H. reflexivity.
Defined.

(** ** The delay parameters *)

(** X19. Editing the delay parameters acts on the two long-lived delay
    nodes and on nothing else: on a mounted engine the effect assigns
    [delayTime / 100 * 1.0] to the delay time and [delayFeedback / 100] to
    the feedback gain, makes no connection and allocates nothing; for
    parameters within 0..100 both values lie within 0..1.  Before mounting
    it does nothing. *)
Theorem updateDelayParams_sets_delay (sp : SynthParams) (e : Engine) :
  (ready e = true →
   newCalls e (exec (updateDelayParams sp) e) =
     [ SetValue DelayNode P_delayTime (delayTime sp / 100 * 1.0);
       SetValue DelayFeedbackGain P_gain (delayFeedback sp / 100) ]
   ∧ edges (exec (updateDelayParams sp) e) = edges e
   ∧ nextId (exec (updateDelayParams sp) e) = nextId e)
  ∧ (ready e = false → exec (updateDelayParams sp) e = e)
  ∧ (0 <= delayTime sp → delayTime sp <= 100 →
     0 <= delayTime sp / 100 * 1.0 ∧ delayTime sp / 100 * 1.0 <= 1)
  ∧ (0 <= delayFeedback sp → delayFeedback sp <= 100 →
     0 <= delayFeedback sp / 100 ∧ delayFeedback sp / 100 <= 1).
Proof.
  split; [| split; [| split]].
  - intros Hr. destruct (updateDelayParams_counters sp e) as (Hn & Hg & _).
    split; [| done]. apply newCalls_app. open_engine e. run_audio.
    by rewrite <- app_assoc.
  - intros Hr. unfold updateDelayParams. by apply whenReady_not_ready.
  - intros H0 H1. assert (0 <= delayTime sp / 100) by (apply Qle_shift_div_l; lra).
    assert (delayTime sp / 100 <= 1) by (apply Qle_shift_div_r; lra). lra.
  - intros H0 H1. split; [apply Qle_shift_div_l; lra | apply Qle_shift_div_r; lra].
Qed.

Lemma updateDelayParams_sets_delay_witness :
  newCalls mountedEngine (exec (updateDelayParams defaultSynthParams) mountedEngine) =
    [ SetValue DelayNode P_delayTime (30 / 100 * 1.0);
      SetValue DelayFeedbackGain P_gain (40 / 100) ].
Proof.
  destruct (updateDelayParams_sets_delay defaultSynthParams mountedEngine) as (H & _).
  destruct H as (H & _); [reflexivity | exact H].
Defined.

(** X20. A melodic note does not read the delay parameters: two
    parameter snapshots that agree on waveform, cutoff, resonance, attack,
    decay, sustain and release make [playSynthNote] do exactly the same. *)
Theorem playSynthNote_ignores_delay_params (sp sp' : SynthParams) (fx : EffectsGraphState)
    (f : Q) (e : Engine) :
  oscillatorType sp = oscillatorType sp' → cutoff sp = cutoff sp' →
  resonance sp = resonance sp' → attack sp = attack sp' → decay sp = decay sp' →
  sustain sp = sustain sp' → release sp = release sp' →
  exec (playSynthNote sp fx f) e = exec (playSynthNote sp' fx f) e.
Proof.
  destruct sp, sp'. cbn. intros <- <- <- <- <- <- <-.
  destruct e as [[] t n g cs]; [| reflexivity].
  destruct fx as [[] [] [] ?]; run_audio; cbn; reflexivity.
Qed.

Lemma playSynthNote_ignores_delay_params_witness :
  exec (playSynthNote defaultSynthParams noEffects 300) mountedEngine
  = exec (playSynthNote
            {| oscillatorType := sawtooth; cutoff := 50; resonance := 20; attack := 20;
               decay := 40; sustain := 70; release := 30; delayTime := 99;
               delayFeedback := 1 |} noEffects 300) mountedEngine.
Proof.
  apply (playSynthNote_ignores_delay_params defaultSynthParams); reflexivity.
Defined.

(** ** The delay feedback loop *)

Lemma no_feedback_playSynthNote sp fx f e :
  ready e = true → (DelayNode, DelayFeedbackGain) ∉ edges e →
  (DelayNode, DelayFeedbackGain) ∉ edges (exec (playSynthNote sp fx f) e).
Proof.
  intros Hr Hno. rewrite playSynthNote_edges by done. cbv zeta.
  rewrite chain_stageEdges, elem_of_union, elem_of_list_to_set, elem_of_cons, elem_of_filter.
  intros [[Heq | Hin] | [_ Hin]].
  - discriminate Heq.
  - destruct fx as [[] [] [] ?]; cbn in Hin; set_unfold;
      repeat destruct Hin as [Hin | Hin]; done.
  - set_unfold. destruct Hin as [Hin | [Hin | Hin]]; done.
Qed.

Lemma no_feedback_playDrumSound dp type e :
  ready e = true → (DelayNode, DelayFeedbackGain) ∉ edges e →
  (DelayNode, DelayFeedbackGain) ∉ edges (exec (playDrumSound dp type) e).
Proof.
  intros Hr Hno. rewrite playDrumSound_edges, elem_of_union, elem_of_list_to_set by done.
  intros [Hin | Hin]; [| done].
  destruct type; cbn in Hin; set_unfold; repeat destruct Hin as [Hin | Hin]; done.
Qed.

(** X21. The delay's feedback loop does not survive routing: a melodic
    note played on a mounted engine with the delay enabled removes the
    connection from the delay to its feedback gain, and once that
    connection is gone no later step of the component brings it back. *)
Theorem feedback_loop_lost :
  (∀ (sp : SynthParams) (fx : EffectsGraphState) (f : Q) (e : Engine),
     ready e = true → delayEnabled fx = true →
     (DelayNode, DelayFeedbackGain) ∉ edges (exec (playSynthNote sp fx f) e))
  ∧ (∀ a a' : App,
       step a a' → ready (engine a) = true →
       (DelayNode, DelayFeedbackGain) ∉ edges (engine a) →
       (DelayNode, DelayFeedbackGain) ∉ edges (engine a')).
Proof.
  split.
  - intros sp fx f e Hr Hd. rewrite playSynthNote_edges by done. cbv zeta.
    rewrite chain_stageEdges, elem_of_union, elem_of_list_to_set, elem_of_cons,
      elem_of_filter. cbn [fst].
    intros [[Heq | Hin] | [(_ & Hdel & _) _]].
    + discriminate Heq.
    + destruct fx as [[] [] [] ?]; cbn in Hin; set_unfold;
        repeat destruct Hin as [Hin | Hin]; done.
    + by apply Hdel.
  - intros a a' Hstep Hr Hno.
    apply (mounted_step (λ _ g, (DelayNode, DelayFeedbackGain) ∉ g)
             no_feedback_playSynthNote no_feedback_playDrumSound a a' Hstep Hr Hno).
Qed.

Lemma feedback_loop_lost_witness :
  (DelayNode, DelayFeedbackGain)
    ∉ edges (exec (playSynthNote defaultSynthParams allEffects 300) mountedEngine).
Proof.
  destruct feedback_loop_lost as [H _].
  apply (H defaultSynthParams allEffects 300 mountedEngine); reflexivity.
Defined.

(** ** What one tick does *)

Lemma playDrumSound_allocations dp type e :
  ready e = true →
  nextId (exec (playDrumSound dp type) e) = (nextId e + drumAllocations type)%nat.
Proof. intros Hr. rewrite playDrumSound_nextId by done. by destruct type. Qed.

Lemma exec_playDrumSoundAny dp instrument e :
  exec (playDrumSoundAny dp instrument) e =
    match drumOfString instrument with
    | Some type => exec (playDrumSound dp type) e
    | None => e
    end.
Proof. unfold playDrumSoundAny. by destruct (drumOfString instrument). Qed.

Lemma forEachEntry_calls dp step entries : ∀ e,
  ready e = true →
  let e' := exec (forEachEntry entries (λ instrument steps,
                    if stepActive steps step then playDrumSoundAny dp instrument else skip)) e in
  ready e' = true ∧ currentTime e' = currentTime e
  ∧ calls e' = calls e ++ expectedDrumCalls dp step entries (currentTime e) (nextId e).
Proof.
  induction entries as [| [instrument steps] rest IH]; intros e Hr; cbn zeta.
  - split_and!; try done. cbn. by rewrite app_nil_r.
  - cbn [forEachEntry expectedDrumCalls]. rewrite exec_bind. cbv beta.
    destruct (stepActive steps step); [rewrite exec_playDrumSoundAny;
      destruct (drumOfString instrument) as [type |] |].
    + destruct (playDrumSound_frame dp type e) as [Hr1 Ht1].
      destruct (IH (exec (playDrumSound dp type) e)) as (Hr2 & Ht2 & Hc2);
        [by rewrite Hr1 |].
      split_and!; [done | by rewrite Ht2 |].
      rewrite Hc2, playDrumSound_calls, playDrumSound_allocations, Ht1 by done.
      by rewrite app_assoc.
    + by apply IH.
    + by apply IH.
Qed.

(** X22. The calls of one tick on a mounted engine, in order: the
    melodic note at [300 + 20 * currentStep] Hz if the melodic step is
    active, then the drums whose lane is active at the step, in the order of
    the drum pattern's keys, then the duck envelope if compression and
    duck-on-kick are on and the kick step is active.  All of them carry the
    same trigger time. *)
Theorem tick_calls (a a' : App) (steps : list bool) :
  ready (engine a) = true →
  tick a = Some a' →
  getLane (drumSequencer a) "kick" = Some steps →
  let t := currentTime (engine a) in
  let id := nextId (engine a) in
  let melodic := stepActive (synthSequencer a) (currentStep a) in
  newCalls (engine a) (engine a') =
    (if melodic
     then synthCalls (synthParams a) (300 + Qnat (currentStep a) * 20) t id else [])
    ++ expectedDrumCalls (drumParams a) (currentStep a) (drumSequencer a) t
         (if melodic then S (S (S id)) else id)
    ++ (if compressionEnabled (effects a) && duckKick (effects a)
           && stepActive steps (currentStep a)
        then [Automate DuckGain P_gain (setTargetAtTime 0.3 t 0.05)] else []).
Proof.
  intros Hr (duck & Hduck & ->)%tick_unfold Hk. cbv zeta.
  unfold duckCondition in Hduck. rewrite Hk in Hduck.
  assert (Hduck' : duck = compressionEnabled (effects a) && duckKick (effects a)
                          && stepActive steps (currentStep a)).
  { destruct (compressionEnabled (effects a) && duckKick (effects a)); cbn in *; congruence. }
  rewrite <- Hduck'. clear Hduck Hduck'. cbn [setEngine engine].
  (* the voices *)
  assert (Hv : ready (exec (tickVoices a) (engine a)) = true
               ∧ currentTime (exec (tickVoices a) (engine a)) = currentTime (engine a)
               ∧ calls (exec (tickVoices a) (engine a)) =
                   calls (engine a)
                   ++ (if stepActive (synthSequencer a) (currentStep a)
                       then synthCalls (synthParams a) (300 + Qnat (currentStep a) * 20)
                              (currentTime (engine a)) (nextId (engine a))
                       else [])
                   ++ expectedDrumCalls (drumParams a) (currentStep a) (drumSequencer a)
                        (currentTime (engine a))
                        (if stepActive (synthSequencer a) (currentStep a)
                         then S (S (S (nextId (engine a)))) else nextId (engine a))).
  { unfold tickVoices. rewrite exec_bind. cbv beta.
    destruct (stepActive (synthSequencer a) (currentStep a)).
    - destruct (playSynthNote_frame (synthParams a) (effects a)
                  (300 + Qnat (currentStep a) * 20) (engine a)) as [Hr1 Ht1].
      destruct (forEachEntry_calls (drumParams a) (currentStep a) (drumSequencer a)
                  (exec (playSynthNote (synthParams a) (effects a)
                           (300 + Qnat (currentStep a) * 20)) (engine a)))
        as (Hr2 & Ht2 & Hc2); [by rewrite Hr1 |].
      split_and!; [done | by rewrite Ht2 |].
      rewrite Hc2, playSynthNote_calls, playSynthNote_nextId, Ht1 by done.
      by rewrite app_assoc.
    - destruct (forEachEntry_calls (drumParams a) (currentStep a) (drumSequencer a)
                  (engine a) Hr) as (Hr2 & Ht2 & Hc2).
      split_and!; done. }
  destruct Hv as (Hr1 & Ht1 & Hc1). rewrite Hr1, andb_true_r.
  apply newCalls_app. destruct duck.
  - destruct (atNow_spec (λ t, Automate DuckGain P_gain (setTargetAtTime 0.3 t 0.05))
                (exec (tickVoices a) (engine a))) as (_ & _ & _ & ->).
    rewrite Hc1, Ht1. by rewrite <- !app_assoc.
  - rewrite Hc1. by rewrite app_nil_r.
Qed.

Lemma tick_calls_witness :
  ∃ a', tick demoApp = Some a'
        ∧ newCalls (engine demoApp) (engine a') =
            synthCalls defaultSynthParams (300 + Qnat 0 * 20) 0 0
            ++ drumCalls defaultDrumParams kick 0 3
            ++ [Automate DuckGain P_gain (setTargetAtTime 0.3 0 0.05)].
Proof.
  destruct (tick_total demoApp) as [a' Ht]; [by eexists |].
  exists a'. split; [exact Ht |].
  pose proof (tick_calls demoApp a' (toggled (replicate 16 false) 0)) as H.
  cbv zeta in H. rewrite H; [reflexivity | reflexivity | exact Ht | reflexivity].
Defined.

Lemma getLane_elem obj key steps : getLane obj key = Some steps → (key, steps) ∈ obj.
Proof.
  induction obj as [| [k s] rest IH]; cbn; [done |].
  destruct (decide (k = key)) as [-> | Hne].
  - intros [= ->]. by left.
  - intros H. right. by apply IH.
Qed.

Lemma forEachEntry_silent dp step entries e :
  Forall (λ kv, stepActive kv.2 step = false) entries →
  exec (forEachEntry entries (λ instrument steps,
          if stepActive steps step then playDrumSoundAny dp instrument else skip)) e = e.
Proof.
  induction 1 as [| [instrument steps] rest Hs Hrest IH]; [done |].
  cbn [forEachEntry]. rewrite exec_bind. cbn in Hs. by rewrite Hs.
Qed.

(** X23. A step on which nothing is active is silent: when neither the
    melodic pattern nor any drum lane is active at the current step, the
    tick leaves the audio engine and the pending timeouts exactly as they
    were and only advances the step. *)
Theorem tick_silent_step (a a' : App) :
  tick a = Some a' →
  stepActive (synthSequencer a) (currentStep a) = false →
  Forall (λ kv, stepActive kv.2 (currentStep a) = false) (drumSequencer a) →
  engine a' = engine a
  ∧ timeouts a' = timeouts a
  ∧ currentStep a' = ((currentStep a + 1) mod 16)%nat.
Proof.
  intros (duck & Hduck & ->)%tick_unfold Hs Hd. cbn [setEngine engine timeouts currentStep].
  assert (Hv : exec (tickVoices a) (engine a) = engine a).
  { unfold tickVoices. rewrite exec_bind, Hs. by apply forEachEntry_silent. }
  assert (Hno : duck = false).
  { unfold duckCondition in Hduck.
    destruct (compressionEnabled (effects a) && duckKick (effects a)); [| congruence].
    destruct (getLane (drumSequencer a) "kick") as [steps |] eqn:Hk; [| done].
    cbn in Hduck. injection Hduck as <-.
    apply getLane_elem in Hk. rewrite Forall_forall in Hd. by apply (Hd _ Hk). }
  by rewrite Hv, Hno.
Qed.

Lemma tick_silent_step_witness :
  ∃ a', tick (togglePlay mountedApp) = Some a' ∧ engine a' = engine (togglePlay mountedApp).
Proof.
  destruct (tick_total (togglePlay mountedApp)) as [a' Ht]; [by eexists |].
  exists a'. split; [exact Ht |].
  destruct (tick_silent_step (togglePlay mountedApp) a') as (H & _).
  - exact Ht.
  - reflexivity.
  - repeat (apply Forall_cons_2; [reflexivity |]). apply Forall_nil_2.
  - exact H.
Defined.

(** ** Buffer contents *)

Lemma Qnat_nonneg n : 0 <= Qnat n.
Proof. unfold Qnat, Qle. cbn. lia. Qed.

Lemma Qnat_le n m : (n ≤ m)%nat → Qnat n <= Qnat m.
Proof. intros H. unfold Qnat, Qle. cbn. lia. Qed.

Lemma Qnat_lt n m : (n < m)%nat → Qnat n < Qnat m.
Proof. intros H. unfold Qnat, Qlt. cbn. lia. Qed.

Lemma fraction_range i n : (i < n)%nat → 0 < 1 - Qnat i / Qnat n ∧ 1 - Qnat i / Qnat n <= 1.
Proof.
  intros H. pose proof (Qnat_lt i n H) as Hlt. pose proof (Qnat_nonneg i) as Hi.
  assert (Hn : 0 < Qnat n) by lra.
  assert (H0 : 0 <= Qnat i / Qnat n) by (apply Qle_shift_div_l; lra).
  assert (H1 : Qnat i / Qnat n < 1) by (apply Qlt_shift_div_r; lra).
  lra.
Qed.

(** X24. Buffer contents, for any random stream with values in [0, 1)
    and any rounding on the store that is monotone and keeps -1 and 1 as
    they are: a noise buffer has exactly [bufferSize] samples, all from -1
    to 1, both ends included; the fallback impulse has two channels of
    [length] samples; the number assigned to sample [i] of either channel
    is bounded in magnitude by the envelope [(1 - i / length)^2], which is
    at most 1, and the stored sample lies from -1 to 1. *)
Theorem buffer_contents_bounded (random : nat → Q) (store : Q → Q)
    (bufferSize len k0 : nat) :
  (∀ k, 0 <= random k ∧ random k < 1) →
  (∀ x y, x <= y → store x <= store y) →
  store (-1) == -1 → store 1 == 1 →
  length (noiseData random store bufferSize k0) = bufferSize
  ∧ Forall (λ x, -1 <= x ∧ x <= 1) (noiseData random store bufferSize k0)
  ∧ Forall (λ channel, length channel = len) (impulseData random store len)
  ∧ length (impulseData random store len) = 2%nat
  ∧ (∀ channel i, (channel < 2)%nat → (i < len)%nat →
       let envelope := (1 - Qnat i / Qnat len) * (1 - Qnat i / Qnat len) in
       - envelope <= impulseValue random len (channel * len) i
       ∧ impulseValue random len (channel * len) i <= envelope
       ∧ 0 < envelope ∧ envelope <= 1
       ∧ -1 <= impulseSample random store len (channel * len) i
       ∧ impulseSample random store len (channel * len) i <= 1).
Proof.
  intros Hrand Hmono Hlow Hhigh.
  assert (Hstore : ∀ x, -1 <= x → x <= 1 → -1 <= store x ∧ store x <= 1).
  { intros x H1 H2. apply Hmono in H1, H2. lra. }
  split_and!.
  - unfold noiseData. by rewrite length_fmap, length_seq.
  - unfold noiseData. apply Forall_fmap, Forall_forall. intros i _. cbn.
    destruct (Hrand (k0 + i)%nat). apply Hstore; lra.
  - unfold impulseData. repeat (apply Forall_cons_2; [by rewrite length_fmap, length_seq |]).
    apply Forall_nil_2.
  - done.
  - intros channel i _ Hi envelope. subst envelope. unfold impulseSample.
    assert (Hv : - ((1 - Qnat i / Qnat len) * (1 - Qnat i / Qnat len))
                   <= impulseValue random len (channel * len) i
                 ∧ impulseValue random len (channel * len) i
                   <= (1 - Qnat i / Qnat len) * (1 - Qnat i / Qnat len)
                 ∧ 0 < (1 - Qnat i / Qnat len) * (1 - Qnat i / Qnat len)
                 ∧ (1 - Qnat i / Qnat len) * (1 - Qnat i / Qnat len) <= 1).
    { unfold impulseValue.
      destruct (fraction_range i len Hi) as [Hf0 Hf1].
      set (x := 1 - Qnat i / Qnat len) in *.
      destruct (Hrand (channel * len + i)%nat) as [Hr0 Hr1].
      set (r := random (channel * len + i)%nat) in *.
      assert (Hxx0 : 0 < x * x) by nra. assert (Hxx1 : x * x <= 1) by nra.
      split_and!; try done; nra. }
    destruct Hv as (Hv1 & Hv2 & Hv3 & Hv4).
    destruct (Hstore (impulseValue random len (channel * len) i)) as [Hs1 Hs2]; [lra | lra |].
    split_and!; assumption.
Qed.

Lemma coarseStore_monotone x y : x <= y → coarseStore x <= coarseStore y.
Proof.
  intros H. unfold coarseStore.
  destruct (Qle_bool 0.9 x) eqn:E1, (Qle_bool x 1) eqn:E2,
           (Qle_bool 0.9 y) eqn:E3, (Qle_bool y 1) eqn:E4; cbn [andb];
    repeat match goal with
           | E : Qle_bool _ _ = true |- _ => apply Qle_bool_iff in E
           | E : Qle_bool _ _ = false |- _ =>
               apply not_true_iff_false in E; rewrite Qle_bool_iff in E;
               apply Qnot_le_lt in E
           end; lra.
Defined.

Lemma buffer_contents_bounded_witness :
  noiseData (λ _, 98 # 100) coarseStore 2 0 = [1; 1]
  ∧ Forall (λ x, -1 <= x ∧ x <= 1) (noiseData (λ _, 98 # 100) coarseStore 2 0).
Proof.
  split; [reflexivity |].
  destruct (buffer_contents_bounded (λ _, 98 # 100) coarseStore 2 4 0) as (_ & H & _).
  - intros k. split; [discriminate | reflexivity].
  - exact coarseStore_monotone.
  - reflexivity.
  - reflexivity.
  - exact H.
Defined.
